(** * Searchbox.tsx: the instance controller and the aggregator

    A shallow embedding of the functional component version of
    [src/streamlit_searchbox/frontend/src/Searchbox.tsx]:

    - [SearchBoxFn] and its reducer [streamlitReturnGlobalFn] (the
      aggregator), over an explicit heap of JavaScript objects, so that
      copying an array and writing into it are different things;
    - [SingleSearchBox] and its callbacks [callbackSearch],
      [callbackReset], [callbackSubmit], [onSelectChange],
      [onButtonClick], with the calls of [streamlitReturnFn] collected
      in the order they are made;
    - the timers of [callbackSearch] ([setTimeout] / [clearTimeout]) on
      an explicit clock in milliseconds. *)

From Stdlib Require Import ZArith Lia.
From stdpp Require Import base option list strings.

Open Scope string_scope.
Open Scope list_scope.

(** ** JavaScript values that travel through the component *)

(** [GlobalState.valueList] holds [string | string[] | null]; event values
    are typed [any] and can also be [undefined] (an optional chain that
    found nothing). *)
Inductive jsval :=
| VUndefined
| VNull
| VString (s : string)
| VArray (l : list string).

(** [a ?? b] *)
Definition nullish (a b : jsval) : jsval :=
  match a with
  | VUndefined | VNull => b
  | _ => a
  end.

(** [v?.length]: [None] stands for [undefined]. *)
Definition length_of (v : jsval) : option nat :=
  match v with
  | VString s => Some (String.length s)
  | VArray l => Some (length l)
  | VUndefined | VNull => None
  end.

(** Truthiness of [v?.length], the test of the [reset] branch. *)
Definition has_length (v : jsval) : bool :=
  match length_of v with
  | Some (S _) => true
  | _ => false
  end.

(** [String(v)], as string concatenation applies it to an operand. *)
Definition ToString (v : jsval) : string :=
  match v with
  | VUndefined => "undefined"
  | VNull => "null"
  | VString s => s
  | VArray l => String.concat "," l
  end.

(** ** Arrays written by index *)

(** [arr[i]] on an array of slots. A negative key is not an element. *)
Definition js_array_get (l : list jsval) (i : Z) : jsval :=
  if (i <? 0)%Z then VUndefined else default VUndefined (l !! Z.to_nat i).

(** [arr[i] = v]. Inside the array the slot is replaced; past the end
    JavaScript extends the array, the slots in between being holes that
    read as [undefined]; a negative key becomes a property of the object
    that is no element of the array: it does not count for [length], and
    neither the spread [[...arr]] nor the serialisation of the value sent
    to the host keeps it. *)
Definition js_array_set (l : list jsval) (i : Z) (v : jsval) : list jsval :=
  if (i <? 0)%Z then l
  else if (i <? Z.of_nat (length l))%Z then <[Z.to_nat i := v]> l
  else l ++ replicate (Z.to_nat i - length l) VUndefined ++ [v].

(** ** Events *)

(** [StreamlitReturn["interaction"]], with the two kinds that
    [onHeaderClick] and [onFooterClick] add. *)
Inductive Interaction :=
| Submit
| Search
| Reset
| ButtonClick
| SimpleValue
| HeaderClick
| FooterClick.

Record StreamlitReturn := {
  interaction : Interaction;
  value : jsval;
  index : Z
}.

(** A call [streamlitReturnFn(interaction, value)] made by a controller. *)
Definition Emission : Type := Interaction * jsval.

(** ** The aggregator: [SearchBoxFn] *)

Definition loc := nat.

(** Objects on the heap: arrays of slots, and [GlobalState] records,
    whose [valueList] field is a reference to an array. *)
Inductive obj :=
| OArray (elems : list jsval)
| OGlobalState (action : option StreamlitReturn) (valueList : loc).

(** The heap, the React state cell of [SearchBoxFn] (a reference to the
    current [GlobalState]) and the arguments of the calls of
    [Streamlit.setComponentValue], oldest first. *)
Record World := {
  heap : list obj;
  current : loc;
  pushed : list loc
}.

(** State and failure: [None] is a type error of the JavaScript program
    (a dangling reference, a field read on the wrong kind of object). *)
Definition M (A : Type) : Type := World -> option (A * World).

Definition ret {A} (a : A) : M A := fun w => Some (a, w).
Definition bind {A B} (m : M A) (k : A -> M B) : M B :=
  fun w => match m w with
           | Some (a, w') => k a w'
           | None => None
           end.
Definition fail {A} : M A := fun _ => None.

Notation "'let*' x ':=' m 'in' k" := (bind m (fun x => k))
  (at level 10, x pattern, m at level 100, k at level 200).
Notation "m ;;; k" := (bind m (fun _ => k))
  (at level 100, k at level 200, right associativity).

Definition alloc (o : obj) : M loc :=
  fun w => Some (length (heap w),
                 {| heap := heap w ++ [o]; current := current w; pushed := pushed w |}).

Definition load (a : loc) : M obj :=
  fun w => match heap w !! a with
           | Some o => Some (o, w)
           | None => None
           end.

Definition store (a : loc) (o : obj) : M unit :=
  fun w => match heap w !! a with
           | Some _ => Some (tt, {| heap := <[a := o]> (heap w);
                                    current := current w; pushed := pushed w |})
           | None => None
           end.

Definition load_state (a : loc) : M (option StreamlitReturn * loc) :=
  let* o := load a in
  match o with
  | OGlobalState act vl => ret (act, vl)
  | OArray _ => fail
  end.

Definition load_array (a : loc) : M (list jsval) :=
  let* o := load a in
  match o with
  | OArray l => ret l
  | OGlobalState _ _ => fail
  end.

(** [[...arr]]: a new array with the same elements. *)
Definition spread (a : loc) : M loc :=
  let* l := load_array a in
  alloc (OArray l).

(** [arr[i] = v], in place. *)
Definition array_set (a : loc) (i : Z) (v : jsval) : M unit :=
  let* l := load_array a in
  store a (OArray (js_array_set l i v)).

Definition array_get (a : loc) (i : Z) : M jsval :=
  let* l := load_array a in
  ret (js_array_get l i).

(** [newState.valueList = arr], in place. *)
Definition set_valueList (a : loc) (arr : loc) : M unit :=
  let* (act, _) := load_state a in
  store a (OGlobalState act arr).

(** [Streamlit.setComponentValue(v)] *)
Definition setComponentValue (a : loc) : M unit :=
  fun w => Some (tt, {| heap := heap w; current := current w;
                        pushed := pushed w ++ [a] |}).

Definition get_current : M loc := fun w => Some (current w, w).
Definition set_current (a : loc) : M unit :=
  fun w => Some (tt, {| heap := heap w; current := a; pushed := pushed w |}).

(** The reducer passed to [setState] by [streamlitReturnGlobalFn]. *)
Definition streamlitReturnGlobalFn (input : StreamlitReturn) : M unit :=
  let* s := get_current in
  let* (_, s_valueList) := load_state s in
  let* newState := alloc (OGlobalState (Some input) s_valueList) in
  (match interaction input with
   | Submit | SimpleValue =>
       let* newValueList := spread s_valueList in
       array_set newValueList (index input) (value input) ;;;
       set_valueList newState newValueList
   | Reset =>
       let* newValueList := spread s_valueList in
       let* old := array_get newValueList (index input) in
       array_set newValueList (index input)
                 (if has_length old then VArray [] else VNull) ;;;
       set_valueList newState newValueList
   | Search | ButtonClick | HeaderClick | FooterClick => ret tt
   end) ;;;
  setComponentValue newState ;;;
  set_current newState.

(** ** Configuration of one instance *)

Record Option := {
  opt_value : string;   (* [value] *)
  label : string
}.

(** What react-select hands to [onChange]: one option for a single
    select, the array of the selected options for a multi select. The
    source types both as [Option] and casts. *)
Inductive selection :=
| One (o : Option)
| Many (l : list Option).

(** The fields of [innerProps] that the logic reads. *)
Record InnerProps := {
  option_source : jsval;
  default_options : list Option;
  options : list Option;
  is_multi : bool;
  edit_after_submit : string;
  clear_on_submit : bool;
  debounce : Z;
  selected_value : option selection;
  selected_value_list : list Option;
  props_default : jsval;          (* [default] *)
  datetimepicker_props : bool     (* is it set *)
}.

(** [useState(() => ({action: null, valueList: propsList.map((props) =>
    props.default ?? null)}))] *)
Definition mount (propsList : list InnerProps) : M unit :=
  let* valueList :=
    alloc (OArray (map (fun props => nullish (props_default props) VNull) propsList)) in
  let* s := alloc (OGlobalState None valueList) in
  set_current s.

Definition SearchBoxFn (propsList : list InnerProps) : option World :=
  snd <$> mount propsList {| heap := []; current := 0; pushed := [] |}.

(** The events handled one after the other. *)
Fixpoint dispatch (events : list StreamlitReturn) : M unit :=
  match events with
  | [] => ret tt
  | input :: rest => streamlitReturnGlobalFn input ;;; dispatch rest
  end.

(** The component from its mount through a list of events. *)
Definition SearchBoxFn_run (propsList : list InnerProps)
    (events : list StreamlitReturn) : option World :=
  w ← SearchBoxFn propsList;
  snd <$> dispatch events w.

(** What a reference to a [GlobalState] denotes: its action and the
    elements of its value list. *)
Definition deref (h : list obj) (a : loc) : option (option StreamlitReturn * list jsval) :=
  match h !! a with
  | Some (OGlobalState act vl) =>
      match h !! vl with
      | Some (OArray l) => Some (act, l)
      | _ => None
      end
  | _ => None
  end.

Definition view (w : World) : option (option StreamlitReturn * list jsval) :=
  deref (heap w) (current w).

(** The last event of a list, [act] when the list is empty. *)
Definition last_action (act : option StreamlitReturn) (events : list StreamlitReturn)
    : option StreamlitReturn :=
  foldl (fun _ e => Some e) act events.

(** Does the reducer copy and write the value list for this kind. *)
Definition writes_slot (k : Interaction) : bool :=
  match k with
  | Submit | SimpleValue | Reset => true
  | Search | ButtonClick | HeaderClick | FooterClick => false
  end.

(** The elements of the value list after an event, from those before. *)
Definition slots_after (input : StreamlitReturn) (l : list jsval) : list jsval :=
  match interaction input with
  | Submit | SimpleValue => js_array_set l (index input) (value input)
  | Reset =>
      js_array_set l (index input)
        (if has_length (js_array_get l (index input)) then VArray [] else VNull)
  | Search | ButtonClick | HeaderClick | FooterClick => l
  end.

(** ** The instance controller: [SingleSearchBox] *)

Record State := {
  menu : bool;
  selectedOption : option selection;     (* [null] is [None] *)
  selectedOptionList : list Option;
  inputValue : jsval
}.

(** [lastSearchUpdate.current]: the text of the latest keystroke and the
    timer that will report it. *)
Record Timeout := {
  id : nat;
  createdAt : Z
}.

Record SearchUpdate := {
  search_value : string;    (* [value] *)
  timeout : Timeout
}.

(** A pending [setTimeout] callback. The callback of [callbackSearch]
    reads [lastSearchUpdate.current] when it runs, through the ref object
    its closure captured. *)
Record Timer := {
  timer_id : nat;
  due : Z;
  reads : loc
}.

(** One mounted [SingleSearchBox]: its React state, the ref objects made
    by [React.createRef()] (the component body makes one each time it
    runs), the ref the current callbacks close over, the timers, and the
    calls of [streamlitReturnFn] so far, oldest first. *)
Record Instance := {
  state : State;
  refs : list (option SearchUpdate);
  lastSearchUpdate : loc;
  timers : list Timer;
  next_timer : nat;
  sent : list Emission
}.

Definition streamlitReturnFn (k : Interaction) (v : jsval) (c : Instance) : Instance :=
  {| state := state c; refs := refs c; lastSearchUpdate := lastSearchUpdate c;
     timers := timers c; next_timer := next_timer c;
     sent := sent c ++ [(k, v)] |}.

Definition setState (f : State -> State) (c : Instance) : Instance :=
  {| state := f (state c); refs := refs c; lastSearchUpdate := lastSearchUpdate c;
     timers := timers c; next_timer := next_timer c; sent := sent c |}.

Definition set_timers (ts : list Timer) (c : Instance) : Instance :=
  {| state := state c; refs := refs c; lastSearchUpdate := lastSearchUpdate c;
     timers := ts; next_timer := next_timer c; sent := sent c |}.

(** [lastSearchUpdate.current] *)
Definition lastSearchUpdate_current (c : Instance) : option SearchUpdate :=
  mjoin (refs c !! lastSearchUpdate c).

(** [lastSearchUpdate.current = v] *)
Definition set_lastSearchUpdate (v : SearchUpdate) (c : Instance) : Instance :=
  {| state := state c; refs := <[lastSearchUpdate c := Some v]> (refs c);
     lastSearchUpdate := lastSearchUpdate c;
     timers := timers c; next_timer := next_timer c; sent := sent c |}.

(** The first render: [useState] takes its initial value from the
    arguments and the body creates the ref. *)
Definition SingleSearchBox (args : InnerProps) : Instance :=
  {| state := {| menu := false;
                 selectedOption := selected_value args;
                 selectedOptionList := selected_value_list args;
                 inputValue := option_source args |};
     refs := [None];
     lastSearchUpdate := 0;
     timers := [];
     next_timer := 0;
     sent := [] |}.

(** A later render: the body runs again, [React.createRef()] returns a
    new object, and [useCallback], whose dependency it is, returns
    callbacks that close over the new one. *)
Definition render (c : Instance) : Instance :=
  {| state := state c; refs := refs c ++ [None];
     lastSearchUpdate := length (refs c);
     timers := timers c; next_timer := next_timer c; sent := sent c |}.

(** [clearTimeout(id)]: nothing happens when the timer has run. *)
Definition clearTimeout (i : nat) (c : Instance) : Instance :=
  set_timers (filter (fun t => timer_id t ≠ i) (timers c)) c.

(** [setTimeout(() => streamlitReturnFn("search",
    lastSearchUpdate.current?.value), debounce)] at time [now]; a
    negative delay counts as zero. Returns the timer's id. *)
Definition setTimeout (debounce now : Z) (c : Instance) : nat * Instance :=
  (next_timer c,
   {| state := state c; refs := refs c; lastSearchUpdate := lastSearchUpdate c;
      timers := timers c ++ [{| timer_id := next_timer c;
                                due := (now + Z.max 0 debounce)%Z;
                                reads := lastSearchUpdate c |}];
      next_timer := S (next_timer c); sent := sent c |}).

(** The timer's callback. *)
Definition fire (t : Timer) (c : Instance) : Instance :=
  streamlitReturnFn Search
    (match mjoin (refs c !! reads t) with
     | Some upd => VString (search_value upd)
     | None => VUndefined
     end) c.

(** [callbackSearch(input, debounce, streamlitReturnFn)], with the value
    that [Date.now()] returns. *)
Definition callbackSearch (input : string) (debounce now : Z) (c : Instance) : Instance :=
  let schedule c :=
    let '(i, c) := setTimeout debounce now c in
    set_lastSearchUpdate
      {| search_value := input; timeout := {| id := i; createdAt := now |} |} c in
  let c :=
    match lastSearchUpdate_current c with
    | Some upd =>
        if (now - createdAt (timeout upd) >? debounce - 10)%Z
        then schedule (clearTimeout (id (timeout upd)) c)
        else set_lastSearchUpdate
               {| search_value := input; timeout := timeout upd |} c
    | None => schedule c
    end in
  setState (fun s => {| inputValue := VString input;
                        selectedOption := None;
                        selectedOptionList := selectedOptionList s;
                        menu := menu s |}) c.

(** [callbackReset()] *)
Definition callbackReset (c : Instance) : Instance :=
  setState (fun _ => {| menu := false;
                        selectedOption := None;
                        selectedOptionList := [];
                        inputValue := VString "" |})
           (streamlitReturnFn Reset (VString "") c).

(** [option.label]: an array has no such property. *)
Definition label_of (chosen : selection) : jsval :=
  match chosen with
  | One o => VString (label o)
  | Many _ => VUndefined
  end.

(** The [switch (edit_after_submit)] of [callbackSubmit]. *)
Definition input_after_submit (args : InnerProps) (chosen : selection) (s : State) : jsval :=
  if String.eqb (edit_after_submit args) "current" then inputValue s
  else if String.eqb (edit_after_submit args) "option" then label_of chosen
  else if String.eqb (edit_after_submit args) "concat"
       then VString (ToString (inputValue s) +:+ " " +:+ ToString (label_of chosen))
  else VString "".

(** [callbackSubmit(option)], the argument called [chosen] here.
    [None]: [option.map] is called on a value
    that is no array, a [TypeError]. *)
Definition callbackSubmit (args : InnerProps) (chosen : selection) (c : Instance)
    : option Instance :=
  c' ← (if is_multi args
        then match chosen with
             | Many l => Some (streamlitReturnFn Submit (VArray (map label l)) c)
             | One _ => None
             end
        else Some (streamlitReturnFn Submit (label_of chosen) c));
  Some (setState
          (fun s =>
             {| menu := if clear_on_submit args then false else true;
                inputValue := if clear_on_submit args && is_multi args
                              then VString ""
                              else input_after_submit args chosen s;
                selectedOption := Some chosen;
                selectedOptionList := if is_multi args
                                      then match chosen with
                                           | Many l => l
                                           | One _ => selectedOptionList s
                                           end
                                      else selectedOptionList s |}) c').

(** The [action] that react-select reports to [onChange]. *)
Inductive ChangeAction :=
| select_option
| deselect_option
| remove_value
| pop_value
| clear
| create_option.

(** [onSelectChange(option, a)] *)
Definition onSelectChange (args : InnerProps) (chosen : selection) (a : ChangeAction)
    (c : Instance) : option Instance :=
  match a with
  | select_option => callbackSubmit args chosen c
  | remove_value => if is_multi args then callbackSubmit args chosen c else Some c
  | clear => Some (callbackReset c)
  | deselect_option | pop_value | create_option => Some c
  end.

(** The [action] that react-select reports to [onInputChange]. *)
Inductive InputAction :=
| input_change
| set_value
| input_blur
| menu_close.

(** [onSelectInputChange(inputValue, {action})] at time [now] *)
Definition onSelectInputChange (args : InnerProps) (text : string) (action : InputAction)
    (now : Z) (c : Instance) : Instance :=
  match action with
  | input_change => callbackSearch text (debounce args) now c
  | set_value | input_blur | menu_close => c
  end.

(** [onButtonClick()] *)
Definition onButtonClick (c : Instance) : Instance :=
  streamlitReturnFn ButtonClick
    (match selectedOption (state c) with
     | Some chosen => label_of chosen
     | None => VUndefined
     end) c.

(** The [onChange] of [SimpleDatetimePicker]: the text of the input. *)
Definition SimpleDatetimePicker_onChange (text : string) : Emission :=
  (SimpleValue, VString text).

(** ** Keystrokes on a clock *)

(** The timers that are due at [now] run, in the order they were set,
    which for one delay is the order in which they are due. *)
Definition run_timers (now : Z) (c : Instance) : Instance :=
  foldl (fun c t => fire t c)
        (set_timers (filter (fun t => (now < due t)%Z) (timers c)) c)
        (filter (fun t => (due t <= now)%Z) (timers c)).

(** No more input: every pending timer runs. *)
Definition run_all_timers (c : Instance) : Instance :=
  foldl (fun c t => fire t c) (set_timers [] c) (timers c).

(** A keystroke: when it happens and the text of the input after it. *)
Definition Keystroke : Type := Z * string.

(** One keystroke reaches [onSelectInputChange] after the timers that
    were due before it; a timer due at the very time of the keystroke is
    taken to run first. [rerender] tells whether the component body runs
    again before the next keystroke: the mounted component does, since
    [callbackSearch] sets the state at every keystroke. *)
Definition type_key (rerender : bool) (args : InnerProps) (c : Instance) (k : Keystroke)
    : Instance :=
  let c := onSelectInputChange args k.2 input_change k.1 (run_timers k.1 c) in
  if rerender then render c else c.

(** What a freshly mounted instance sends for a sequence of keystrokes,
    once all its timers have run. *)
Definition type_keys (rerender : bool) (args : InnerProps) (keys : list Keystroke)
    : list Emission :=
  sent (run_all_timers (foldl (type_key rerender args) (SingleSearchBox args) keys)).

(** The keystrokes after time [t] are in chronological order. *)
Fixpoint chronological (t : Z) (keys : list Keystroke) : Prop :=
  match keys with
  | [] => True
  | k :: rest => (t <= k.1)%Z ∧ chronological k.1 rest
  end.

(** Each keystroke after the one at [t] comes less than [D] after the
    one before it. *)
Fixpoint rapid (D : Z) (t : Z) (keys : list Keystroke) : Prop :=
  match keys with
  | [] => True
  | k :: rest => (t <= k.1 < t + D)%Z ∧ rapid D k.1 rest
  end.

(** ** From the controllers to the aggregator *)

(** The [streamlitReturnFn] that [SearchBoxFnRenderer] builds for the
    instance at position [i]. *)
Definition SearchBoxFnRenderer (i : nat) (e : Emission) : StreamlitReturn :=
  {| interaction := e.1; value := e.2; index := Z.of_nat i |}.

(** [onHeaderClick(e)] and [onFooterClick(e)], with [e?.target?.id]. *)
Definition onHeaderClick (target_id : jsval) : StreamlitReturn :=
  {| interaction := HeaderClick; value := target_id; index := (-1)%Z |}.

Definition onFooterClick (target_id : jsval) : StreamlitReturn :=
  {| interaction := FooterClick; value := target_id; index := (-1)%Z |}.

(** The events that can reach [streamlitReturnGlobalFn] when [N]
    instances are rendered: [propsList.map] gives each renderer its
    position, and the header and the footer report position -1. *)
Inductive wired (N : nat) : StreamlitReturn -> Prop :=
| wired_instance i e : i < N -> wired N (SearchBoxFnRenderer i e)
| wired_header target_id : wired N (onHeaderClick target_id)
| wired_footer target_id : wired N (onFooterClick target_id).

(** react-select hands [onChange] an array exactly when [isMulti] is set. *)
Definition fits (args : InnerProps) (chosen : selection) : Prop :=
  match chosen with
  | One _ => is_multi args = false
  | Many _ => is_multi args = true
  end.

(** What the controller rendered for [args] can send: a
    [SimpleDatetimePicker] the text of its input; a [SingleSearchBox]
    what [onSelectChange] sends, and searches and button clicks. *)
Inductive sends (args : InnerProps) : Emission -> Prop :=
| sends_datetime text :
    datetimepicker_props args = true ->
    sends args (SimpleDatetimePicker_onChange text)
| sends_select chosen a c c' e :
    datetimepicker_props args = false ->
    fits args chosen ->
    onSelectChange args chosen a c = Some c' ->
    e ∈ drop (length (sent c)) (sent c') ->
    sends args e
| sends_search v :
    datetimepicker_props args = false -> sends args (Search, v)
| sends_button v :
    datetimepicker_props args = false -> sends args (ButtonClick, v).

(** The events of a page rendered from [propsList]. *)
Inductive raised (propsList : list InnerProps) : StreamlitReturn -> Prop :=
| raised_instance i args e :
    propsList !! i = Some args -> sends args e ->
    raised propsList (SearchBoxFnRenderer i e)
| raised_header target_id : raised propsList (onHeaderClick target_id)
| raised_footer target_id : raised propsList (onFooterClick target_id).

(** ** Shapes of slots *)

(** Is the slot of this instance the slot of a multi select. A
    [SimpleDatetimePicker] never reads [is_multi]. *)
Definition multi_slot (args : InnerProps) : bool :=
  is_multi args && negb (datetimepicker_props args).

(** A scalar string or null for a single select, a list of strings for a
    multi select. *)
Definition shape_ok (multi : bool) (v : jsval) : bool :=
  match v with
  | VString _ | VNull => negb multi
  | VArray _ => multi
  | VUndefined => false
  end.

(** The shapes the reducer keeps: besides the above, the empty list in
    the slot of a single select and null in the slot of a multi select. *)
Definition shape_kept (multi : bool) (v : jsval) : bool :=
  match v with
  | VNull => true
  | VString _ => negb multi
  | VArray l => multi || bool_decide (l = [])
  | VUndefined => false
  end.

(** ** Sample configurations *)

(** A single select with the given flags, no default and no text. *)
Definition sample_props (multi clear_ : bool) (edit : string) (D : Z) : InnerProps :=
  {| option_source := VString "";
     default_options := [];
     options := [{| opt_value := "x"; label := "Bar" |}];
     is_multi := multi;
     edit_after_submit := edit;
     clear_on_submit := clear_;
     debounce := D;
     selected_value := None;
     selected_value_list := [];
     props_default := VUndefined;
     datetimepicker_props := false |}.

Definition Bar : Option := {| opt_value := "x"; label := "Bar" |}.
Definition Baz : Option := {| opt_value := "y"; label := "Baz" |}.

(** What the timer [tm] will send if it runs now. *)
Definition reading (c : Instance) (tm : Timer) : Emission :=
  (Search,
   match mjoin (refs c !! reads tm) with
   | Some upd => VString (search_value upd)
   | None => VUndefined
   end).

(** What the instance has sent and what its pending timers will send. *)
Definition outcome (c : Instance) : list Emission :=
  sent c ++ map (reading c) (timers c).

(** Timers in the order in which they are due. *)
Fixpoint by_due (ts : list Timer) : Prop :=
  match ts with
  | [] => True
  | tm :: rest => Forall (fun tm' => (due tm <= due tm')%Z) rest /\ by_due rest
  end.

(** The instance right after a render, no keystroke later than [T]: the
    new ref is empty, and each pending timer reads an older ref. *)
Definition rendered (args : InnerProps) (T : Z) (c : Instance) : Prop :=
  refs c !! lastSearchUpdate c = Some None
  /\ Forall (fun tm => reads tm < length (refs c)
                       /\ reads tm ≠ lastSearchUpdate c
                       /\ (due tm <= T + Z.max 0 (debounce args))%Z) (timers c)
  /\ by_due (timers c).

(** ** More of the controller *)

(** [optionList]: [state.inputValue === "" ? default_options : options] *)
Definition optionList (args : InnerProps) (s : State) : list Option :=
  match inputValue s with
  | VString EmptyString => default_options args
  | _ => options args
  end.

(** ** Focus and polling: [onFocus], [waitUntil] *)

(** Truthiness of a value ([if (inputValue)]). *)
Definition truthy (v : jsval) : bool :=
  match v with
  | VUndefined | VNull => false
  | VString s => negb (String.eqb s "")
  | VArray _ => true
  end.

(** The promises that calls of [waitUntil] have made, each resolved or
    not, and the promise whose [setTimeout] callback is pending, if any. *)
Record Poller := {
  promises : list bool;
  polling : option nat
}.

(** [waitUntil(check, baseMs)]: makes a promise, whose executor sets the
    timer at once, and returns it. *)
Definition waitUntil (p : Poller) : nat * Poller :=
  (length (promises p),
   {| promises := promises p ++ [false]; polling := Some (length (promises p)) |}).

(** The callback of the timer, when [check()] returns [ok]: it resolves
    its own promise, or else calls [waitUntil] again and does nothing
    with the promise that returns. *)
Definition poll (p : Poller) (ok : bool) : Poller :=
  match polling p with
  | None => p
  | Some i =>
      if ok
      then {| promises := <[i := true]> (promises p); polling := None |}
      else (waitUntil {| promises := promises p; polling := None |}).2
  end.

(** One call of [waitUntil] from outside, then the timers run one after
    the other, [check()] returning the values of [checks] in turn. The
    promise returned to the caller is the first one, number 0. *)
Definition waitUntil_run (checks : list bool) : Poller :=
  foldl poll (waitUntil {| promises := []; polling := None |}).2 checks.

(** Has the promise returned to the caller been resolved, so that what
    was attached to it with [then] runs. *)
Definition caller_resumed (p : Poller) : bool :=
  default false (promises p !! 0).

(** [a === b] on the values of this model. Strings are compared by
    content. Two arrays are [===] only when they are one object, which
    these values do not record: [None], the model cannot tell. *)
Definition strict_eq (a b : jsval) : option bool :=
  match a, b with
  | VArray _, VArray _ => None
  | VUndefined, VUndefined => Some true
  | VNull, VNull => Some true
  | VString s, VString t => Some (String.eqb s t)
  | _, _ => Some false
  end.

(** [openSelectMenu()] *)
Definition openSelectMenu (c : Instance) : Instance :=
  setState (fun s => {| menu := true;
                        selectedOption := selectedOption s;
                        selectedOptionList := selectedOptionList s;
                        inputValue := inputValue s |}) c.

(** [onFocus()], up to the call of [waitUntil]: when there is text, a
    search for it is sent at once and polling starts. The result holds
    the two values that [check] compares, [option_source] and
    [inputValue]: both are constants of the render that made the
    callback, so every poll compares the same two values. [None]: no
    text, nothing happens. *)
Definition onFocus (args : InnerProps) (c : Instance) : Instance * option (jsval * jsval) :=
  let inputValue := inputValue (state c) in
  if truthy inputValue
  then (streamlitReturnFn Search inputValue c, Some (option_source args, inputValue))
  else (c, None).

(** The instance [n] polls after a focus: the menu is opened when the
    promise that [onFocus] holds is resolved. [None]: the check compares
    two arrays, and the model cannot tell how it ends. *)
Definition focus_then_polls (args : InnerProps) (c : Instance) (n : nat)
    : option Instance :=
  match onFocus args c with
  | (c', Some (source, text)) =>
      ok ← strict_eq source text;
      Some (if caller_resumed (waitUntil_run (replicate n ok))
            then openSelectMenu c'
            else c')
  | (c', None) => Some c'
  end.

(** ** The earlier version of the two components

    The earlier function components (in the unnamed part of the sources;
    the class components of the second half of [Searchbox.tsx] have the
    same reducer): [callbackSubmit] clears everything when submit-clear
    is set, and the aggregator keeps one entry per instance, the one of
    the latest event being flagged [isChangeSource]. *)
Module Earlier.

(** [callbackSubmit(option)] *)
Definition callbackSubmit (args : InnerProps) (chosen : selection) (c : Instance)
    : option Instance :=
  c' ← (if is_multi args
        then match chosen with
             | Many l => Some (streamlitReturnFn Submit (VArray (map label l)) c)
             | One _ => None
             end
        else Some (streamlitReturnFn Submit (label_of chosen) c));
  Some (setState
          (fun s =>
             if clear_on_submit args
             then {| menu := false;
                     inputValue := VString "";
                     selectedOption := None;
                     selectedOptionList := [] |}
             else {| menu := false;
                     selectedOption := Some chosen;
                     inputValue := input_after_submit args chosen s;
                     selectedOptionList := if is_multi args
                                           then match chosen with
                                                | Many l => l
                                                | One _ => selectedOptionList s
                                                end
                                           else selectedOptionList s |}) c').

(** An entry of the state array: [{...returnVal, isChangeSource}]. *)
Record Entry := {
  returned : Emission;
  isChangeSource : bool
}.

(** An element of the state array: null, a reference to an entry, or
    [undefined] where the previous state had no element. *)
Inductive slot :=
| SNull
| SUndefined
| SRef (a : loc).

(** The entries on the heap, the React state (an array) and the arrays
    given to [Streamlit.setComponentValue], oldest first. *)
Record World := {
  entries : list Entry;
  state : list slot;
  pushed : list (list slot)
}.

(** [if (value?.isChangeSource) { value.isChangeSource = false }], in
    place. *)
Definition clear_flag (value : slot) (h : list Entry) : list Entry :=
  match value with
  | SRef a =>
      match h !! a with
      | Some e =>
          if isChangeSource e
          then <[a := {| returned := returned e; isChangeSource := false |}]> h
          else h
      | None => h
      end
  | SNull | SUndefined => h
  end.

(** The callback of [propsList.map], for the positions [innerIndex],
    ..., [innerIndex + n - 1] in turn. *)
Fixpoint map_slots (index : Z) (returnVal : Emission) (s : list slot)
    (innerIndex n : nat) (h : list Entry) : list Entry * list slot :=
  match n with
  | 0 => (h, [])
  | S n =>
      let value := default SUndefined (s !! innerIndex) in
      let h := clear_flag value h in
      let '(h, out) :=
        if (Z.of_nat innerIndex =? index)%Z
        then (h ++ [{| returned := returnVal; isChangeSource := true |}],
              SRef (length h))
        else (h, value) in
      let '(h, rest) := map_slots index returnVal s (S innerIndex) n h in
      (h, out :: rest)
  end.

(** [streamlitReturnGlobalFn(index, returnVal)] when [propsList] has [N]
    elements. *)
Definition streamlitReturnGlobalFn (N : nat) (index : Z) (returnVal : Emission)
    (w : World) : World :=
  let '(h, newState) := map_slots index returnVal (state w) 0 N (entries w) in
  {| entries := h; state := newState; pushed := pushed w ++ [newState] |}.

(** [useState(() => propsList.map(() => null))] *)
Definition SearchBoxFn (N : nat) : World :=
  {| entries := []; state := replicate N SNull; pushed := [] |}.

(** Is the entry of this element flagged. *)
Definition flagged (h : list Entry) (v : slot) : bool :=
  match v with
  | SRef a => default false (isChangeSource <$> h !! a)
  | SNull | SUndefined => false
  end.

(** Every reference of the array is to an entry that exists. *)
Definition well_formed (w : World) : Prop :=
  Forall (fun v => match v with
                   | SRef a => a < length (entries w)
                   | SNull | SUndefined => True
                   end) (state w).

(** The events of the instances at the given positions, handled one
    after the other from the mount. *)
Definition dispatch (N : nat) (events : list (nat * Emission)) : World :=
  foldl (fun w e => streamlitReturnGlobalFn N (Z.of_nat e.1) e.2 w) (SearchBoxFn N) events.

End Earlier.

(** ** The reducer, step by step *)

Lemma SearchBoxFn_mounts propsList :
  SearchBoxFn propsList =
  Some {| heap := [OArray (map (fun props => nullish (props_default props) VNull) propsList);
                   OGlobalState None 0];
          current := 1; pushed := [] |}.
Proof. reflexivity. Qed.

Lemma lookup_snoc {A} (h : list A) (x : A) : (h ++ [x]) !! length h = Some x.
Proof. rewrite lookup_app_r by lia. by rewrite Nat.sub_diag. Qed.

Lemma lookup_snoc2 {A} (h : list A) (x y : A) :
  (h ++ [x; y]) !! S (length h) = Some y.
Proof.
  rewrite lookup_app_r by lia.
  by replace (S (length h) - length h) with 1 by lia.
Qed.

Lemma insert_snoc {A} (h : list A) (x y : A) :
  <[length h := y]> (h ++ [x]) = h ++ [y].
Proof. rewrite insert_app_r_alt by lia. by rewrite Nat.sub_diag. Qed.

Lemma bind_Some {A B} (m : M A) (k : A -> M B) w a w' :
  m w = Some (a, w') -> bind m k w = k a w'.
Proof. unfold bind. by intros ->. Qed.

Lemma load_state_ok a act vl w :
  heap w !! a = Some (OGlobalState act vl) ->
  load_state a w = Some ((act, vl), w).
Proof. unfold load_state, bind, load. by intros ->. Qed.

Lemma load_array_ok a l w :
  heap w !! a = Some (OArray l) -> load_array a w = Some (l, w).
Proof. unfold load_array, bind, load. by intros ->. Qed.

Lemma spread_ok a l w :
  heap w !! a = Some (OArray l) ->
  spread a w = Some (length (heap w),
                     {| heap := heap w ++ [OArray l];
                        current := current w; pushed := pushed w |}).
Proof. intros H. unfold spread. by rewrite (bind_Some _ _ _ _ _ (load_array_ok _ _ _ H)). Qed.

Lemma array_get_ok a l i w :
  heap w !! a = Some (OArray l) ->
  array_get a i w = Some (js_array_get l i, w).
Proof. intros H. unfold array_get. by rewrite (bind_Some _ _ _ _ _ (load_array_ok _ _ _ H)). Qed.

Lemma array_set_ok a l i v w :
  heap w !! a = Some (OArray l) ->
  array_set a i v w =
  Some (tt, {| heap := <[a := OArray (js_array_set l i v)]> (heap w);
               current := current w; pushed := pushed w |}).
Proof.
  intros H. unfold array_set.
  rewrite (bind_Some _ _ _ _ _ (load_array_ok _ _ _ H)).
  unfold store. by rewrite H.
Qed.

Lemma set_valueList_ok a act vl arr w :
  heap w !! a = Some (OGlobalState act vl) ->
  set_valueList a arr w =
  Some (tt, {| heap := <[a := OGlobalState act arr]> (heap w);
               current := current w; pushed := pushed w |}).
Proof.
  intros H. unfold set_valueList.
  rewrite (bind_Some _ _ _ _ _ (load_state_ok _ _ _ _ H)).
  unfold store. by rewrite H.
Qed.

Lemma insert_snoc2 {A} (h : list A) (x y a : A) :
  <[length h := a]> ((h ++ [x]) ++ [y]) = h ++ [a; y].
Proof.
  rewrite <- app_assoc. rewrite insert_app_r_alt by lia.
  by rewrite Nat.sub_diag.
Qed.

Lemma lookup_snoc2_l {A} (h : list A) (x y : A) :
  ((h ++ [x]) ++ [y]) !! length h = Some x.
Proof.
  rewrite <- app_assoc. rewrite lookup_app_r by lia.
  by rewrite Nat.sub_diag.
Qed.

(** The effect of one event on a world whose current state is well
    formed: one or two objects are allocated, nothing else changes. *)
Lemma streamlitReturnGlobalFn_spec input w act vl l :
  heap w !! current w = Some (OGlobalState act vl) ->
  heap w !! vl = Some (OArray l) ->
  streamlitReturnGlobalFn input w =
  Some (tt,
        {| heap := heap w ++
                   (if writes_slot (interaction input)
                    then [OGlobalState (Some input) (S (length (heap w)));
                          OArray (slots_after input l)]
                    else [OGlobalState (Some input) vl]);
           current := length (heap w);
           pushed := pushed w ++ [length (heap w)] |}).
Proof.
  intros Hs Hl.
  assert (Hvl : vl < length (heap w)) by (eapply lookup_lt_Some; eauto).
  destruct w as [h c p]; simpl in *.
  unfold streamlitReturnGlobalFn, slots_after.
  rewrite (bind_Some _ _ _ c {| heap := h; current := c; pushed := p |}) by reflexivity.
  erewrite bind_Some by (by apply load_state_ok; simpl; eauto).
  cbv beta iota.
  erewrite bind_Some by reflexivity.
  cbn [heap current pushed].
  assert (H1 : (h ++ [OGlobalState (Some input) vl]) !! vl = Some (OArray l))
    by (by rewrite lookup_app_l).
  assert (Hlen1 : length (h ++ [OGlobalState (Some input) vl]) = S (length h))
    by (rewrite length_app; simpl; lia).
  destruct (interaction input); cbn [writes_slot]; try reflexivity.
  all: unfold bind at 1;
    (erewrite (bind_Some (spread vl)); [| apply spread_ok; exact H1]);
    cbn [heap current pushed];
    try (erewrite (bind_Some (array_get _ _));
         [| apply array_get_ok; cbn [heap]; apply lookup_snoc]);
    (erewrite (bind_Some (array_set _ _ _));
     [| apply array_set_ok; cbn [heap]; apply lookup_snoc]);
    cbn [heap current pushed];
    rewrite insert_snoc;
    (erewrite set_valueList_ok; [| cbn [heap]; apply lookup_snoc2_l]);
    cbn [heap current pushed];
    rewrite insert_snoc2, Hlen1; reflexivity.
Qed.

Lemma view_inv w act l :
  view w = Some (act, l) ->
  exists vl, heap w !! current w = Some (OGlobalState act vl)
             /\ heap w !! vl = Some (OArray l).
Proof.
  unfold view, deref. intros H.
  destruct (heap w !! current w) as [[|act' vl]|] eqn:Hs; try discriminate.
  destruct (heap w !! vl) as [[l'|]|] eqn:Hl; try discriminate.
  inversion H; subst. eauto.
Qed.

(** Objects that exist keep their address and their content when the
    heap grows at its end. *)
Lemma deref_app h h' a x : deref h a = Some x -> deref (h ++ h') a = Some x.
Proof.
  unfold deref. intros H.
  destruct (h !! a) as [[|act vl]|] eqn:Hs; try discriminate.
  destruct (h !! vl) as [[l|]|] eqn:Hl; try discriminate.
  rewrite (lookup_app_l_Some _ _ _ _ Hs), (lookup_app_l_Some _ _ _ _ Hl). done.
Qed.

(** One event, seen through [view]. *)
Lemma streamlitReturnGlobalFn_view input w act l :
  view w = Some (act, l) ->
  exists w', streamlitReturnGlobalFn input w = Some (tt, w')
             /\ view w' = Some (Some input, slots_after input l).
Proof.
  intros Hv. destruct (view_inv _ _ _ Hv) as (vl & Hs & Hl).
  eexists. split; [by eapply streamlitReturnGlobalFn_spec|].
  unfold view, deref. cbn [heap current].
  destruct (writes_slot (interaction input)) eqn:Hk.
  - rewrite lookup_app_r by lia. rewrite Nat.sub_diag. cbn.
    by rewrite lookup_snoc2.
  - rewrite lookup_snoc.
    rewrite (lookup_app_l_Some _ _ _ _ Hl).
    unfold slots_after. by destruct (interaction input).
Qed.

Lemma dispatch_view events : forall w act l,
  view w = Some (act, l) ->
  exists w', dispatch events w = Some (tt, w')
             /\ view w' = Some (last_action act events,
                                foldl (fun l e => slots_after e l) l events).
Proof.
  induction events as [|e events IH]; intros w act l Hv.
  - exists w. by split.
  - destruct (streamlitReturnGlobalFn_view e _ _ _ Hv) as (w1 & Hstep & Hv1).
    destruct (IH _ _ _ Hv1) as (w2 & Hrun & Hv2).
    exists w2. split; [|exact Hv2].
    cbn [dispatch]. by rewrite (bind_Some _ _ _ _ _ Hstep).
Qed.

(** The component never gets stuck: every list of events is handled, and
    the value list is the initial one folded through the events. *)
Lemma SearchBoxFn_run_view propsList events :
  exists w, SearchBoxFn_run propsList events = Some w
            /\ view w = Some (last_action None events,
                              foldl (fun l e => slots_after e l)
                                    (map (fun props => nullish (props_default props) VNull)
                                         propsList)
                                    events).
Proof.
  unfold SearchBoxFn_run. rewrite SearchBoxFn_mounts. cbn [mbind option_bind].
  destruct (dispatch_view events
              {| heap := [OArray (map (fun props => nullish (props_default props) VNull)
                                      propsList);
                          OGlobalState None 0];
                 current := 1; pushed := [] |} None _ eq_refl) as (w & Hrun & Hv).
  exists w. split; [|exact Hv]. by rewrite Hrun.
Qed.

(** A write inside the array keeps its length. *)
Lemma js_array_set_length l (i : nat) v :
  i < length l -> length (js_array_set l (Z.of_nat i) v) = length l.
Proof.
  intros Hi. unfold js_array_set.
  destruct (Z.ltb_spec (Z.of_nat i) 0); [lia|].
  destruct (Z.ltb_spec (Z.of_nat i) (Z.of_nat (length l))); [|lia].
  by rewrite length_insert.
Qed.

Lemma js_array_set_lookup l (i : nat) v :
  i < length l -> js_array_set l (Z.of_nat i) v !! i = Some v.
Proof.
  intros Hi. unfold js_array_set.
  destruct (Z.ltb_spec (Z.of_nat i) 0); [lia|].
  destruct (Z.ltb_spec (Z.of_nat i) (Z.of_nat (length l))); [|lia].
  rewrite Nat2Z.id. by apply list_lookup_insert_eq.
Qed.

Lemma js_array_set_lookup_ne l (i j : nat) v :
  i < length l -> i ≠ j -> js_array_set l (Z.of_nat i) v !! j = l !! j.
Proof.
  intros Hi Hne. unfold js_array_set.
  destruct (Z.ltb_spec (Z.of_nat i) 0); [lia|].
  destruct (Z.ltb_spec (Z.of_nat i) (Z.of_nat (length l))); [|lia].
  rewrite Nat2Z.id. by apply list_lookup_insert_ne.
Qed.

Lemma js_array_get_lookup l (i : nat) v :
  l !! i = Some v -> js_array_get l (Z.of_nat i) = v.
Proof.
  intros H. unfold js_array_get.
  destruct (Z.ltb_spec (Z.of_nat i) 0); [lia|].
  by rewrite Nat2Z.id, H.
Qed.

Lemma wired_slots_after_length N e l :
  wired N e -> length l = N -> length (slots_after e l) = N.
Proof.
  intros [i [k v] Hi | t | t] Hl; [|done..].
  unfold slots_after, SearchBoxFnRenderer; cbn.
  destruct k; try done; by rewrite js_array_set_length by lia.
Qed.

Lemma wired_foldl_length N events :
  Forall (wired N) events ->
  forall l, length l = N ->
            length (foldl (fun l e => slots_after e l) l events) = N.
Proof.
  induction 1 as [|e events He _ IH]; intros l Hl; [exact Hl|].
  cbn [foldl]. apply IH. by apply wired_slots_after_length.
Qed.

(** ** The value list has one slot per instance *)

(** C1. For every configuration list [propsList] and every list of events
    that the rendered page can raise (from the instance at a position
    below the number of instances, or from the header or the footer),
    the component handles them all and the value list of the resulting
    state has exactly as many slots as there are instances. *)
Theorem C1_valueList_length propsList events :
  Forall (wired (length propsList)) events ->
  exists w act l,
    SearchBoxFn_run propsList events = Some w
    /\ view w = Some (act, l)
    /\ length l = length propsList.
Proof.
  intros Hw.
  destruct (SearchBoxFn_run_view propsList events) as (w & Hrun & Hv).
  exists w; do 2 eexists. split; [exact Hrun|]. split; [exact Hv|].
  apply wired_foldl_length; [exact Hw|]. apply length_map.
Qed.

Lemma C1_valueList_length_witness :
  let propsList := [sample_props false false "option" 300;
                    sample_props true false "option" 0] in
  let events := [SearchBoxFnRenderer 0 (Submit, VString "Bar");
                 onHeaderClick (VString "logo");
                 SearchBoxFnRenderer 1 (Submit, VArray ["Bar"; "Baz"]);
                 SearchBoxFnRenderer 0 (Reset, VString "")] in
  Forall (wired (length propsList)) events
  /\ exists w act l,
       SearchBoxFn_run propsList events = Some w
       /\ view w = Some (act, l)
       /\ length l = length propsList.
Proof.
  intros propsList events.
  assert (H : Forall (wired (length propsList)) events).
  { repeat constructor; simpl; lia. }
  split; [exact H|]. exact (C1_valueList_length propsList events H).
Defined.

(** ** Reset *)

(** C5. When the reducer handles a reset for position [i] of a value list
    that has a slot there, holding [old], the slot of the new value list
    holds the empty list if [old] has a nonzero length and null
    otherwise; every other position reads as before, and the list has as
    many slots as before. *)
Theorem C5_reset_slot w act l (i : nat) old v :
  view w = Some (act, l) ->
  l !! i = Some old ->
  let input := {| interaction := Reset; value := v; index := Z.of_nat i |} in
  exists w' l',
    streamlitReturnGlobalFn input w = Some (tt, w')
    /\ view w' = Some (Some input, l')
    /\ l' !! i = Some (if has_length old then VArray [] else VNull)
    /\ (forall j, j ≠ i -> l' !! j = l !! j)
    /\ length l' = length l.
Proof.
  intros Hv Hold input.
  assert (Hi : i < length l) by (eapply lookup_lt_Some; eauto).
  destruct (streamlitReturnGlobalFn_view input _ _ _ Hv) as (w' & Hstep & Hv').
  exists w', (slots_after input l). split; [exact Hstep|]. split; [exact Hv'|].
  unfold slots_after, input; cbn [interaction index value].
  rewrite (js_array_get_lookup _ _ _ Hold).
  split; [by apply js_array_set_lookup|].
  split; [|by apply js_array_set_length].
  intros j Hj. by apply js_array_set_lookup_ne.
Qed.

Lemma C5_reset_slot_witness :
  let w := {| heap := [OArray [VString "Bar"; VArray []]; OGlobalState None 0];
              current := 1; pushed := [] |} in
  let input := {| interaction := Reset; value := VString ""; index := 0%Z |} in
  exists w' l',
    streamlitReturnGlobalFn input w = Some (tt, w')
    /\ view w' = Some (Some input, l')
    /\ l' !! 0 = Some (VArray [])
    /\ (forall j, j ≠ 0 -> l' !! j = [VString "Bar"; VArray []] !! j)
    /\ length l' = 2.
Proof.
  intros w input.
  exact (C5_reset_slot w None [VString "Bar"; VArray []] 0 (VString "Bar") (VString "")
                       eq_refl eq_refl).
Defined.

(** ** Every event makes a new value and pushes it once *)

(** C8. For every event handled in a well-formed world: a new
    [GlobalState] object is made (its address was free before); no object
    that existed is changed, so neither the previous state nor the value
    list it refers to, nor anything pushed earlier; and
    [Streamlit.setComponentValue] is called exactly once, with the new
    object, which is also the new React state. *)
Theorem C8_new_value_pushed_once w act l input :
  view w = Some (act, l) ->
  exists w',
    streamlitReturnGlobalFn input w = Some (tt, w')
    /\ heap w !! current w' = None
    /\ (forall a o, heap w !! a = Some o -> heap w' !! a = Some o)
    /\ (forall a x, deref (heap w) a = Some x -> deref (heap w') a = Some x)
    /\ pushed w' = pushed w ++ [current w']
    /\ view w' = Some (Some input, slots_after input l).
Proof.
  intros Hv. destruct (view_inv _ _ _ Hv) as (vl & Hs & Hl).
  destruct (streamlitReturnGlobalFn_view input _ _ _ Hv) as (w' & Hstep & Hv').
  exists w'. split; [exact Hstep|].
  rewrite (streamlitReturnGlobalFn_spec _ _ _ _ _ Hs Hl) in Hstep.
  inversion Hstep as [Hw']; clear Hstep. subst w'. cbn [heap current pushed].
  split; [by apply lookup_ge_None_2|].
  split; [intros a o Ha; by apply lookup_app_l_Some|].
  split; [intros a x Ha; by apply deref_app|].
  split; [done|]. exact Hv'.
Qed.

Lemma C8_new_value_pushed_once_witness :
  let w := {| heap := [OArray [VNull; VNull]; OGlobalState None 0];
              current := 1; pushed := [] |} in
  let input := SearchBoxFnRenderer 1 (Submit, VString "Bar") in
  exists w',
    streamlitReturnGlobalFn input w = Some (tt, w')
    /\ heap w !! current w' = None
    /\ (forall a o, heap w !! a = Some o -> heap w' !! a = Some o)
    /\ (forall a x, deref (heap w) a = Some x -> deref (heap w') a = Some x)
    /\ pushed w' = pushed w ++ [current w']
    /\ view w' = Some (Some input, slots_after input [VNull; VNull]).
Proof.
  intros w input.
  exact (C8_new_value_pushed_once w None [VNull; VNull] input eq_refl).
Defined.

(** ** Events that leave the slots alone *)

Lemma writes_slot_false k :
  k ∈ [Search; ButtonClick; HeaderClick; FooterClick] <-> writes_slot k = false.
Proof.
  rewrite !elem_of_cons, elem_of_nil.
  destruct k; cbn; split; intros H; try done; try tauto;
    repeat destruct H as [H|H]; done.
Qed.

Lemma writes_slot_true k :
  k ∈ [Submit; SimpleValue; Reset] <-> writes_slot k = true.
Proof.
  rewrite !elem_of_cons, elem_of_nil.
  destruct k; cbn; split; intros H; try done; try tauto;
    repeat destruct H as [H|H]; done.
Qed.

(** C10. An event of kind search, button-click, header-click or
    footer-click changes no slot: the new state carries the event as its
    action and refers to the very array the previous state referred to.
    Hence the value list differs after an event only when the kind is
    submit, simple-value or reset. *)
Theorem C10_only_writes_touch_slots w act vl l input :
  heap w !! current w = Some (OGlobalState act vl) ->
  heap w !! vl = Some (OArray l) ->
  exists w' l',
    streamlitReturnGlobalFn input w = Some (tt, w')
    /\ view w' = Some (Some input, l')
    /\ (interaction input ∈ [Search; ButtonClick; HeaderClick; FooterClick] ->
        heap w' !! current w' = Some (OGlobalState (Some input) vl) /\ l' = l)
    /\ (l' ≠ l -> interaction input ∈ [Submit; SimpleValue; Reset]).
Proof.
  intros Hs Hl.
  assert (Hv : view w = Some (act, l)) by (unfold view, deref; by rewrite Hs, Hl).
  destruct (streamlitReturnGlobalFn_view input _ _ _ Hv) as (w' & Hstep & Hv').
  exists w', (slots_after input l). split; [exact Hstep|]. split; [exact Hv'|].
  rewrite (streamlitReturnGlobalFn_spec _ _ _ _ _ Hs Hl) in Hstep.
  inversion Hstep as [Hw']; clear Hstep. subst w'.
  unfold slots_after. cbn [heap current].
  split.
  - intros Hk.
    apply writes_slot_false in Hk.
    rewrite Hk, lookup_snoc. split; [done|].
    destruct (interaction input); done.
  - intros Hne. apply writes_slot_true.
    destruct (interaction input); done.
Qed.

Lemma C10_only_writes_touch_slots_witness :
  let w := {| heap := [OArray [VString "Bar"; VNull]; OGlobalState None 0];
              current := 1; pushed := [] |} in
  let input := onHeaderClick (VString "logo") in
  exists w' l',
    streamlitReturnGlobalFn input w = Some (tt, w')
    /\ view w' = Some (Some input, l')
    /\ (interaction input ∈ [Search; ButtonClick; HeaderClick; FooterClick] ->
        heap w' !! current w' = Some (OGlobalState (Some input) 0)
        /\ l' = [VString "Bar"; VNull])
    /\ (l' ≠ [VString "Bar"; VNull] -> interaction input ∈ [Submit; SimpleValue; Reset]).
Proof.
  intros w input.
  exact (C10_only_writes_touch_slots w None 0 [VString "Bar"; VNull] input
                                     eq_refl eq_refl).
Defined.

(** ** The controller: keystrokes, reset, submit *)

Lemma state_setState f c : state (setState f c) = f (state c).
Proof. reflexivity. Qed.

Lemma sent_setState f c : sent (setState f c) = sent c.
Proof. reflexivity. Qed.

(** C9. On every keystroke that reaches [callbackSearch], the input text
    becomes the typed text and the selected option of the single mode
    becomes null, while the selected option list of the multi mode and
    the menu flag stay as they were. *)
Theorem C9_keystroke_state args text now c :
  let c' := onSelectInputChange args text input_change now c in
  inputValue (state c') = VString text
  /\ selectedOption (state c') = None
  /\ selectedOptionList (state c') = selectedOptionList (state c)
  /\ menu (state c') = menu (state c).
Proof.
  cbn [onSelectInputChange]. unfold callbackSearch.
  rewrite state_setState. cbn [inputValue selectedOption selectedOptionList menu].
  do 2 (split; [reflexivity|]).
  destruct (lastSearchUpdate_current c) as [upd|]; [|done].
  by destruct (_ >? _)%Z.
Qed.

(** C7. Clearing the control sends exactly one reset event, whose value
    is the empty string, and leaves the instance with no text, no
    selected option, an empty list of selected options and the menu
    closed. *)
Theorem C7_clear_resets args chosen c :
  exists c',
    onSelectChange args chosen clear c = Some c'
    /\ sent c' = sent c ++ [(Reset, VString "")]
    /\ state c' = {| menu := false;
                     selectedOption := None;
                     selectedOptionList := [];
                     inputValue := VString "" |}.
Proof. exists (callbackReset c). by repeat split. Qed.

(** What [callbackSubmit] does when the argument fits the mode. *)
Lemma callbackSubmit_fits args chosen c :
  fits args chosen ->
  callbackSubmit args chosen c =
  Some (setState
          (fun s =>
             {| menu := negb (clear_on_submit args);
                inputValue := if clear_on_submit args && is_multi args
                              then VString ""
                              else input_after_submit args chosen s;
                selectedOption := Some chosen;
                selectedOptionList := match chosen with
                                      | Many l => l
                                      | One _ => selectedOptionList s
                                      end |})
          (streamlitReturnFn Submit
             (match chosen with
              | One o => VString (label o)
              | Many l => VArray (map label l)
              end) c)).
Proof.
  unfold callbackSubmit, fits.
  destruct chosen as [o|l]; intros ->; cbn; by destruct (clear_on_submit args).
Qed.

(** C6. Selecting commits exactly one submit event: in single-select
    mode its value is the label of the selected option, in multi-select
    mode the list of the labels of the selected options, in their order
    (so as many labels as options). *)
Theorem C6_select_submits args chosen c :
  fits args chosen ->
  exists c',
    onSelectChange args chosen select_option c = Some c'
    /\ sent c' = sent c ++ [(Submit,
                             match chosen with
                             | One o => VString (label o)
                             | Many l => VArray (map label l)
                             end)]
    /\ match chosen with
       | One _ => True
       | Many l => length (map label l) = length l
       end.
Proof.
  intros Hfit. eexists. split; [by apply callbackSubmit_fits|].
  split; [reflexivity|]. destruct chosen; [done|apply length_map].
Qed.

Lemma C6_select_submits_witness :
  let args := sample_props true false "option" 0 in
  fits args (Many [Bar; Baz])
  /\ exists c',
       onSelectChange args (Many [Bar; Baz]) select_option (SingleSearchBox args) = Some c'
       /\ sent c' = [(Submit, VArray ["Bar"; "Baz"])]
       /\ length (map label [Bar; Baz]) = 2.
Proof.
  intros args.
  split; [reflexivity|].
  exact (C6_select_submits args (Many [Bar; Baz]) (SingleSearchBox args) eq_refl).
Defined.

(** C3, counterexample: the single select of the example itself. With
    submit-clear set and edit mode "concat", after typing "foo" and
    selecting the option labelled "Bar", the text is "foo Bar" and the
    option stays selected. *)
Lemma C3_single_select_keeps_text :
  let args := sample_props false true "concat" 0 in
  let typed := onSelectInputChange args "foo" input_change 0 (SingleSearchBox args) in
  clear_on_submit args = true
  /\ inputValue (state typed) = VString "foo"
  /\ exists c',
       onSelectChange args (One Bar) select_option typed = Some c'
       /\ inputValue (state c') = VString "foo Bar"
       /\ inputValue (state c') ≠ VString ""
       /\ selectedOption (state c') = Some (One Bar).
Proof.
  intros args typed. split; [reflexivity|]. split; [reflexivity|].
  eexists. split; [reflexivity|]. by repeat split.
Qed.

(** C3, as the code has it. When submit-clear is set, committing a submit
    closes the menu whatever the edit mode, and the submitted option or
    options become the selection. The text becomes the empty string for
    a multi select only; for a single select it is what the edit mode
    gives. *)
Theorem C3_submit_clear args chosen c :
  clear_on_submit args = true ->
  fits args chosen ->
  exists c',
    onSelectChange args chosen select_option c = Some c'
    /\ menu (state c') = false
    /\ selectedOption (state c') = Some chosen
    /\ match chosen with
       | Many l => inputValue (state c') = VString ""
                   /\ selectedOptionList (state c') = l
       | One o => inputValue (state c') = input_after_submit args chosen (state c)
                  /\ selectedOptionList (state c') = selectedOptionList (state c)
       end.
Proof.
  intros Hclear Hfit. eexists. split; [by apply callbackSubmit_fits|].
  rewrite state_setState. cbn [menu selectedOption inputValue selectedOptionList].
  rewrite Hclear. split; [done|]. split; [done|].
  destruct chosen as [o|l]; cbn in Hfit; rewrite Hfit; by split.
Qed.

Lemma C3_submit_clear_witness :
  let args := sample_props true true "concat" 0 in
  let typed := onSelectInputChange args "foo" input_change 0 (SingleSearchBox args) in
  clear_on_submit args = true
  /\ fits args (Many [Bar])
  /\ exists c',
       onSelectChange args (Many [Bar]) select_option typed = Some c'
       /\ menu (state c') = false
       /\ selectedOption (state c') = Some (Many [Bar])
       /\ inputValue (state c') = VString ""
       /\ selectedOptionList (state c') = [Bar].
Proof.
  intros args typed. split; [reflexivity|]. split; [reflexivity|].
  exact (C3_submit_clear args (Many [Bar]) typed eq_refl eq_refl).
Defined.

(** ** Keystrokes and the search timer *)

Lemma filter_later_all now (ts : list Timer) :
  Forall (fun tm => (now < due tm)%Z) ts ->
  filter (fun tm => (now < due tm)%Z) ts = ts.
Proof.
  induction 1 as [|tm ts Htm _ IH]; [done|].
  by rewrite filter_cons_True, IH.
Qed.

Lemma filter_due_none now (ts : list Timer) :
  Forall (fun tm => (now < due tm)%Z) ts ->
  filter (fun tm => (due tm <= now)%Z) ts = [].
Proof.
  induction 1 as [|tm ts Htm _ IH]; [done|].
  rewrite filter_cons_False by lia. exact IH.
Qed.

(** ** Keystrokes when the body runs again after each of them *)

Lemma filter_by_due now (ts : list Timer) :
  by_due ts ->
  filter (fun tm => (due tm <= now)%Z) ts ++ filter (fun tm => (now < due tm)%Z) ts = ts.
Proof.
  induction ts as [|tm ts IH]; [done|]. intros [Hle Hs].
  destruct (Z_le_gt_dec (due tm) now) as [Hd|Hd].
  - rewrite filter_cons_True by done. rewrite (filter_cons_False (fun tm => (now < due tm)%Z)) by lia.
    cbn. by rewrite IH.
  - assert (Hall : Forall (fun tm' => (now < due tm')%Z) (tm :: ts)).
    { constructor; [lia|]. eapply Forall_impl; [exact Hle|]. cbn. intros; lia. }
    by rewrite filter_due_none, filter_later_all.
Qed.

Lemma foldl_fire ts : forall c,
  foldl (fun c tm => fire tm c) c ts =
  {| state := state c; refs := refs c; lastSearchUpdate := lastSearchUpdate c;
     timers := timers c; next_timer := next_timer c;
     sent := sent c ++ map (reading c) ts |}.
Proof.
  induction ts as [|tm ts IH]; intros c.
  - cbn. rewrite app_nil_r. by destruct c.
  - cbn [foldl]. rewrite IH. cbn. by rewrite <- app_assoc.
Qed.

Lemma run_timers_eq now c :
  run_timers now c =
  {| state := state c; refs := refs c; lastSearchUpdate := lastSearchUpdate c;
     timers := filter (fun tm => (now < due tm)%Z) (timers c);
     next_timer := next_timer c;
     sent := sent c ++ map (reading c) (filter (fun tm => (due tm <= now)%Z) (timers c)) |}.
Proof. unfold run_timers. by rewrite foldl_fire. Qed.

Lemma Forall_filter_timers (P Q : Timer -> Prop) `{forall tm, Decision (Q tm)} ts :
  Forall P ts -> Forall P (filter Q ts).
Proof.
  induction 1 as [|tm ts Htm _ IH]; [constructor|].
  destruct (decide (Q tm)).
  - rewrite filter_cons_True by done. by constructor.
  - by rewrite filter_cons_False.
Qed.

Lemma by_due_filter (Q : Timer -> Prop) `{forall tm, Decision (Q tm)} ts :
  by_due ts -> by_due (filter Q ts).
Proof.
  induction ts as [|tm ts IH]; [done|]. intros [Hle Hs].
  destruct (decide (Q tm)).
  - rewrite filter_cons_True by done. split; [|by apply IH].
    by apply Forall_filter_timers.
  - rewrite filter_cons_False by done. by apply IH.
Qed.

Lemma by_due_snoc ts tm :
  by_due ts -> Forall (fun tm' => (due tm' <= due tm)%Z) ts -> by_due (ts ++ [tm]).
Proof.
  induction ts as [|tm' ts IH]; [by repeat constructor|].
  intros [Hle Hs] Hall. inversion Hall; subst.
  split; [|by apply IH].
  apply Forall_app. split; [done|]. by repeat constructor.
Qed.

Lemma map_reading_ext c c' ts :
  Forall (fun tm => reading c' tm = reading c tm) ts ->
  map (reading c') ts = map (reading c) ts.
Proof. induction 1 as [|tm ts Htm _ IH]; [done|]. cbn. by rewrite Htm, IH. Qed.

Lemma type_key_rendered args T c k :
  rendered args T c ->
  (T <= k.1)%Z ->
  rendered args k.1 (type_key true args c k)
  /\ outcome (type_key true args c k) = outcome c ++ [(Search, VString k.2)].
Proof.
  destruct k as [t x]. cbn [fst snd]. intros (Hcur & Hts & Hsorted) HT.
  unfold type_key. cbn [fst snd onSelectInputChange].
  rewrite run_timers_eq. unfold callbackSearch, lastSearchUpdate_current.
  cbn [refs lastSearchUpdate]. rewrite Hcur. cbn [mjoin option_join].
  destruct c as [s r cur ts nt out]. cbn [refs lastSearchUpdate timers sent next_timer state] in *.
  unfold setTimeout, set_lastSearchUpdate, setState, render, rendered, outcome.
  cbn [refs lastSearchUpdate timers sent next_timer state].
  set (upd := {| search_value := x; timeout := {| id := nt; createdAt := t |} |}).
  assert (Hlt : cur < length r) by (by eapply lookup_lt_Some).
  assert (Hlen : length (<[cur := Some upd]> r) = length r) by apply length_insert.
  assert (Hlater : Forall (fun tm => reads tm < length r /\ reads tm ≠ cur
                                     /\ (due tm <= T + Z.max 0 (debounce args))%Z)
                          (filter (fun tm => (t < due tm)%Z) ts))
    by (by apply Forall_filter_timers).
  split; [split; [|split]|].
  - apply lookup_snoc.
  - apply Forall_app. split.
    + eapply Forall_impl; [exact Hlater|]. cbn. intros tm (H1 & H2 & H3).
      rewrite length_app, Hlen. cbn. lia.
    + repeat constructor; cbn; rewrite ?length_app, ?Hlen; cbn; lia.
  - apply by_due_snoc; [by apply by_due_filter|].
    eapply Forall_impl; [exact Hlater|]. cbn. intros tm (H1 & H2 & H3). lia.
  - rewrite map_app. cbn [map].
    match goal with
    | |- (_ ++ map (reading ?c0) _) ++ map (reading ?c1) _ ++ [reading _ ?new] = _ =>
        assert (Hsplit : map (reading c0) ts
                         = map (reading c0) (filter (fun tm => (due tm <= t)%Z) ts)
                           ++ map (reading c0) (filter (fun tm => (t < due tm)%Z) ts))
          by (by rewrite <- map_app, filter_by_due);
        assert (Hold : map (reading c1) (filter (fun tm => (t < due tm)%Z) ts)
                       = map (reading c0) (filter (fun tm => (t < due tm)%Z) ts));
        [|assert (Hnew : reading c1 new = (Search, VString x))]
    end.
    + apply map_reading_ext. eapply Forall_impl; [exact Hlater|]. cbn.
      intros tm (H1 & H2 & H3). unfold reading. cbn [refs].
      rewrite lookup_app_l by lia. by rewrite list_lookup_insert_ne.
    + unfold reading. cbn [refs reads].
      rewrite lookup_app_l by lia. by rewrite list_lookup_insert_eq.
    + rewrite Hsplit, Hold, Hnew. by rewrite <- !app_assoc.
Qed.

Lemma type_keys_rendered args keys : forall T c,
  rendered args T c ->
  chronological T keys ->
  outcome (foldl (type_key true args) c keys)
  = outcome c ++ map (fun k : Keystroke => (Search, VString k.2)) keys.
Proof.
  induction keys as [|k keys IH]; intros T c Hc Hchron.
  - cbn. by rewrite app_nil_r.
  - destruct Hchron as [HT Hrest].
    destruct (type_key_rendered args T c k Hc HT) as [Hc' Hout].
    cbn [foldl map]. rewrite (IH _ _ Hc' Hrest), Hout.
    by rewrite <- app_assoc.
Qed.

Lemma run_all_timers_outcome c : sent (run_all_timers c) = outcome c.
Proof. unfold run_all_timers. by rewrite foldl_fire. Qed.

(** X8. When the component body runs again after every keystroke, every
    keystroke finds an empty ref, sets its own timer, and is reported by
    it: as many search events as keystrokes, each with its own text. *)
Lemma rerender_reports_every_keystroke args T keys :
  chronological T keys ->
  type_keys true args keys = map (fun k : Keystroke => (Search, VString k.2)) keys.
Proof.
  intros Hchron. unfold type_keys. rewrite run_all_timers_outcome.
  rewrite (type_keys_rendered args keys T); [done| |done].
  by repeat split.
Qed.

(** C2, at the failing input. The debounce interval is 300 ms and the
    keystrokes "a", "ab" and "abc" come at 0, 100 and 150 ms, each less
    than the interval after the one before. The body of the component
    runs again after each keystroke (the [setState] of [callbackSearch]),
    [React.createRef()] hands the next keystroke an empty
    [lastSearchUpdate], and so each keystroke sets a timer of its own:
    three search events are sent, one per keystroke, where one event
    with "abc" is due. *)
Lemma C2_rapid_keystrokes_each_reported :
  let args := sample_props false false "option" 300 in
  let keys : list Keystroke := [(100%Z, "ab"); (150%Z, "abc")] in
  rapid (debounce args) 0 keys
  /\ type_keys true args ((0%Z, "a") :: keys)
     = [(Search, VString "a"); (Search, VString "ab"); (Search, VString "abc")]
  /\ type_keys true args ((0%Z, "a") :: keys) ≠ [(Search, VString "abc")].
Proof.
  intros args keys. split; [cbn; lia|].
  split; [vm_compute; reflexivity|]. vm_compute. discriminate.
Qed.

(** ** Shapes of the slots *)

Lemma js_array_set_insert l (i : nat) v :
  i < length l -> js_array_set l (Z.of_nat i) v = <[i := v]> l.
Proof.
  intros Hi. unfold js_array_set.
  destruct (Z.ltb_spec (Z.of_nat i) 0); [lia|].
  destruct (Z.ltb_spec (Z.of_nat i) (Z.of_nat (length l))); [|lia].
  by rewrite Nat2Z.id.
Qed.

Lemma shape_ok_kept multi v : shape_ok multi v = true -> shape_kept multi v = true.
Proof. destruct v, multi; cbn; done. Qed.

(** What a controller writes into its slot with a submit or a
    simple-value event has the shape of its mode. *)
Lemma sends_written_shape args k v :
  sends args (k, v) ->
  k = Submit \/ k = SimpleValue ->
  shape_ok (multi_slot args) v = true.
Proof.
  unfold multi_slot. intros Hs Hk.
  remember (k, v) as e eqn:He.
  destruct Hs as [text Hd | chosen a c c' e Hd Hfit Hchange Hin | v' Hd | v' Hd].
  - inversion He; subst. by rewrite Hd, andb_false_r.
  - subst e. rewrite Hd, andb_true_r.
    assert (Hsubmit : forall c', callbackSubmit args chosen c = Some c' ->
                                 (k, v) ∈ drop (length (sent c)) (sent c') ->
                                 shape_ok (is_multi args) v = true).
    { intros c1 Hc1 Hin1. rewrite (callbackSubmit_fits _ _ _ Hfit) in Hc1.
      inversion Hc1; subst c1; clear Hc1.
      rewrite sent_setState in Hin1. cbn [streamlitReturnFn sent] in Hin1.
      rewrite drop_app_length in Hin1.
      apply list_elem_of_singleton in Hin1. inversion Hin1; subst.
      destruct chosen; cbn in Hfit; by rewrite Hfit. }
    assert (Hidle : (k, v) ∈ drop (length (sent c)) (sent c) -> False).
    { rewrite drop_all. apply not_elem_of_nil. }
    destruct a; cbn [onSelectChange] in Hchange.
    + by apply Hsubmit with c'.
    + inversion Hchange; subst. by destruct Hidle.
    + destruct (is_multi args) eqn:Hm.
      * by apply Hsubmit with c'.
      * inversion Hchange; subst. by destruct Hidle.
    + inversion Hchange; subst. by destruct Hidle.
    + inversion Hchange; subst; clear Hchange.
      unfold callbackReset in Hin. rewrite sent_setState in Hin.
      cbn [streamlitReturnFn sent] in Hin. rewrite drop_app_length in Hin.
      apply list_elem_of_singleton in Hin. inversion Hin; subst.
      by destruct Hk.
    + inversion Hchange; subst. by destruct Hidle.
  - inversion He; subst. by destruct Hk.
  - inversion He; subst. by destruct Hk.
Qed.

Lemma raised_slots_after_shape propsList e l :
  raised propsList e ->
  Forall2 (fun args v => shape_kept (multi_slot args) v = true) propsList l ->
  Forall2 (fun args v => shape_kept (multi_slot args) v = true) propsList
          (slots_after e l).
Proof.
  intros [i args [k v] Hargs Hsends | t | t] Hl; [|done..].
  assert (Hi : i < length l).
  { rewrite <- (Forall2_length _ _ _ Hl). by eapply lookup_lt_Some. }
  assert (Hput : forall v', shape_kept (multi_slot args) v' = true ->
            Forall2 (fun args v => shape_kept (multi_slot args) v = true) propsList
                    (js_array_set l (Z.of_nat i) v')).
  { intros v' Hv'. rewrite js_array_set_insert by done.
    rewrite <- (list_insert_id _ _ _ Hargs). by apply Forall2_insert. }
  unfold slots_after, SearchBoxFnRenderer; cbn [interaction value index fst snd].
  destruct k; try done.
  - apply Hput, shape_ok_kept. eapply sends_written_shape; eauto.
  - apply Hput. destruct (has_length _); cbn; [apply orb_true_r|done].
  - apply Hput, shape_ok_kept. eapply sends_written_shape; eauto.
Qed.

(** C4, counterexample: a reset. A single select whose slot holds the
    submitted label "Bar" is cleared: the label has a length, so the slot
    becomes the empty list, which is no scalar. The two events are the
    ones the controller sends for a selection followed by a clear. *)
Lemma C4_reset_puts_list_in_single_slot :
  let args := sample_props false false "option" 300 in
  let events := [SearchBoxFnRenderer 0 (Submit, VString "Bar");
                 SearchBoxFnRenderer 0 (Reset, VString "")] in
  sent <$> (onSelectChange args (One Bar) select_option (SingleSearchBox args)
            ≫= onSelectChange args (One Bar) clear)
  = Some [(Submit, VString "Bar"); (Reset, VString "")]
  /\ snd <$> (SearchBoxFn_run [args] events ≫= view) = Some [VArray []]
  /\ multi_slot args = false
  /\ shape_ok (multi_slot args) (VArray []) = false.
Proof.
  intros args events. repeat split; vm_compute; reflexivity.
Qed.

Lemma raised_foldl_shape propsList events :
  Forall (raised propsList) events ->
  forall l,
    Forall2 (fun args v => shape_kept (multi_slot args) v = true) propsList l ->
    Forall2 (fun args v => shape_kept (multi_slot args) v = true) propsList
            (foldl (fun l e => slots_after e l) l events).
Proof.
  induction 1 as [|e events He _ IH]; intros l Hl; [exact Hl|].
  cbn [foldl]. apply IH. by apply raised_slots_after_shape.
Qed.

(** C4, as the code has it. Let every configured default be absent or of
    a shape the reducer keeps. After every list of events that the page
    rendered from [propsList] can raise, the slot of a single select (and
    of a datetime input) holds a string, null, or the empty list that a
    reset leaves in place of a text; the slot of a multi select holds a
    list of strings, or null. And when the last event handled is a
    submit, the slot of its instance holds the value submitted, which
    has the shape of the multiplicity flag: a string for a single
    select, a list of strings for a multi select. *)
Theorem C4_slot_shapes propsList events :
  Forall (fun args => shape_kept (multi_slot args) (nullish (props_default args) VNull)
                      = true) propsList ->
  Forall (raised propsList) events ->
  exists w act l,
    SearchBoxFn_run propsList events = Some w
    /\ view w = Some (act, l)
    /\ Forall2 (fun args v => shape_kept (multi_slot args) v = true) propsList l
    /\ forall e, last events = Some e -> interaction e = Submit ->
         exists (i : nat) args,
           index e = Z.of_nat i
           /\ propsList !! i = Some args
           /\ l !! i = Some (value e)
           /\ shape_ok (multi_slot args) (value e) = true.
Proof.
  intros Hdefault Hraised.
  destruct (SearchBoxFn_run_view propsList events) as (w & Hrun & Hv).
  exists w; do 2 eexists. split; [exact Hrun|]. split; [exact Hv|].
  assert (Hinit : Forall2 (fun args v => shape_kept (multi_slot args) v = true) propsList
                    (map (fun props => nullish (props_default props) VNull) propsList)).
  { clear -Hdefault. induction Hdefault; constructor; auto. }
  split; [by apply raised_foldl_shape|].
  intros e Hlast Hsubmit.
  apply last_Some in Hlast. destruct Hlast as [pre ->].
  apply Forall_app in Hraised. destruct Hraised as [Hpre He].
  inversion He as [|? ? Hraised_e _]; subst. clear He.
  pose proof (raised_foldl_shape _ _ Hpre _ Hinit) as Hshape.
  apply Forall2_length in Hshape.
  rewrite foldl_snoc.
  set (before := foldl _ _ pre) in *.
  destruct Hraised_e as [i args [k v] Hargs Hsends | t | t]; [|discriminate..].
  cbn in Hsubmit. subst k.
  exists i, args. split; [reflexivity|]. split; [exact Hargs|]. split.
  - unfold slots_after, SearchBoxFnRenderer. cbn [interaction index value fst snd].
    apply js_array_set_lookup. rewrite <- Hshape. by eapply lookup_lt_Some.
  - cbn. eapply sends_written_shape; eauto.
Qed.

Lemma C4_slot_shapes_witness :
  let single := sample_props false false "option" 300 in
  let multi := sample_props true false "option" 0 in
  let propsList := [single; multi] in
  let events := [SearchBoxFnRenderer 0 (Submit, VString "Bar");
                 SearchBoxFnRenderer 0 (Reset, VString "");
                 onFooterClick (VString "help");
                 SearchBoxFnRenderer 1 (Submit, VArray ["Bar"; "Baz"])] in
  Forall (fun args => shape_kept (multi_slot args) (nullish (props_default args) VNull)
                      = true) propsList
  /\ Forall (raised propsList) events
  /\ exists w act l,
       SearchBoxFn_run propsList events = Some w
       /\ view w = Some (act, l)
       /\ Forall2 (fun args v => shape_kept (multi_slot args) v = true) propsList l
       /\ forall e, last events = Some e -> interaction e = Submit ->
            exists (i : nat) args,
              index e = Z.of_nat i
              /\ propsList !! i = Some args
              /\ l !! i = Some (value e)
              /\ shape_ok (multi_slot args) (value e) = true.
Proof.
  intros single multi propsList events.
  assert (Hdefault : Forall (fun args => shape_kept (multi_slot args)
                                           (nullish (props_default args) VNull) = true)
                            propsList).
  { repeat constructor. }
  assert (Hraised : Forall (raised propsList) events).
  { repeat apply Forall_cons_2; [| | | |apply Forall_nil_2].
    - apply (raised_instance propsList 0 single); [reflexivity|].
      eapply (sends_select single (One Bar) select_option (SingleSearchBox single));
        [reflexivity..|]. apply list_elem_of_here.
    - apply (raised_instance propsList 0 single); [reflexivity|].
      eapply (sends_select single (One Bar) clear (SingleSearchBox single));
        [reflexivity..|]. apply list_elem_of_here.
    - apply raised_footer.
    - apply (raised_instance propsList 1 multi); [reflexivity|].
      eapply (sends_select multi (Many [Bar; Baz]) select_option (SingleSearchBox multi));
        [reflexivity..|]. apply list_elem_of_here. }
  split; [exact Hdefault|]. split; [exact Hraised|].
  exact (C4_slot_shapes propsList events Hdefault Hraised).
Defined.

(** ** More on the reducer: writes, bounds, runs *)

Lemma js_array_set_past_end l (i : nat) v :
  length l <= i ->
  js_array_set l (Z.of_nat i) v = l ++ replicate (i - length l) VUndefined ++ [v].
Proof.
  intros Hi. unfold js_array_set.
  destruct (Z.ltb_spec (Z.of_nat i) 0); [lia|].
  destruct (Z.ltb_spec (Z.of_nat i) (Z.of_nat (length l))); [lia|].
  by rewrite Nat2Z.id.
Qed.

(** Writing at one position never changes what another position of the
    array holds, wherever the write lands. *)
Lemma js_array_set_other l (i : Z) (j : nat) v x :
  i ≠ Z.of_nat j -> l !! j = Some x -> js_array_set l i v !! j = Some x.
Proof.
  intros Hne Hj. unfold js_array_set.
  destruct (Z.ltb_spec i 0); [done|].
  destruct (Z.ltb_spec i (Z.of_nat (length l))).
  - rewrite list_lookup_insert_ne by lia. done.
  - by apply lookup_app_l_Some.
Qed.

(** X1. A submit or a simple-value event for a position that has a slot puts
    the value of the event there; the other slots and the number of
    slots stay. *)
Theorem submit_overwrites_slot w act l (i : nat) k v :
  view w = Some (act, l) ->
  i < length l ->
  k = Submit \/ k = SimpleValue ->
  let input := {| interaction := k; value := v; index := Z.of_nat i |} in
  exists w' l',
    streamlitReturnGlobalFn input w = Some (tt, w')
    /\ view w' = Some (Some input, l')
    /\ l' !! i = Some v
    /\ (forall j, j ≠ i -> l' !! j = l !! j)
    /\ length l' = length l.
Proof.
  intros Hv Hi Hk input.
  destruct (streamlitReturnGlobalFn_view input _ _ _ Hv) as (w' & Hstep & Hv').
  exists w', (js_array_set l (Z.of_nat i) v).
  split; [exact Hstep|]. split.
  { rewrite Hv'. unfold slots_after, input. by destruct Hk as [-> | ->]. }
  split; [by apply js_array_set_lookup|].
  split; [|by apply js_array_set_length].
  intros j Hj. by apply js_array_set_lookup_ne.
Qed.

Lemma submit_overwrites_slot_witness :
  let w := {| heap := [OArray [VNull; VString "2024-01-01"]; OGlobalState None 0];
              current := 1; pushed := [] |} in
  let input := {| interaction := SimpleValue; value := VString "2024-02-02";
                  index := Z.of_nat 1 |} in
  exists w' l',
    streamlitReturnGlobalFn input w = Some (tt, w')
    /\ view w' = Some (Some input, l')
    /\ l' !! 1 = Some (VString "2024-02-02")
    /\ (forall j, j ≠ 1 -> l' !! j = [VNull; VString "2024-01-01"] !! j)
    /\ length l' = 2.
Proof.
  intros w input.
  assert (Hi : 1 < length [VNull; VString "2024-01-01"]) by (simpl; lia).
  exact (submit_overwrites_slot w None [VNull; VString "2024-01-01"] 1 SimpleValue
           (VString "2024-02-02") eq_refl Hi (or_intror eq_refl)).
Defined.

(** X2. A submit or a simple-value event for a position past the end of the
    value list (an instance that was not configured when the component
    mounted) extends the list up to that position: the value of the
    event is the last slot, the slots that existed stay, and the
    positions in between read [undefined]. *)
Theorem submit_past_end_extends w act l (i : nat) k v :
  view w = Some (act, l) ->
  length l <= i ->
  k = Submit \/ k = SimpleValue ->
  let input := {| interaction := k; value := v; index := Z.of_nat i |} in
  exists w' l',
    streamlitReturnGlobalFn input w = Some (tt, w')
    /\ view w' = Some (Some input, l')
    /\ length l' = S i
    /\ l' !! i = Some v
    /\ (forall j, j < length l -> l' !! j = l !! j)
    /\ (forall j, length l <= j < i -> l' !! j = Some VUndefined).
Proof.
  intros Hv Hi Hk input.
  destruct (streamlitReturnGlobalFn_view input _ _ _ Hv) as (w' & Hstep & Hv').
  exists w', (l ++ replicate (i - length l) VUndefined ++ [v]).
  split; [exact Hstep|]. split.
  { rewrite Hv'. unfold slots_after, input.
    destruct Hk as [-> | ->]; cbn [interaction index value];
      by rewrite js_array_set_past_end. }
  split; [rewrite !length_app, length_replicate; simpl; lia|].
  split.
  { rewrite lookup_app_r by lia.
    rewrite lookup_app_r by (rewrite length_replicate; lia).
    rewrite length_replicate. by rewrite Nat.sub_diag. }
  split.
  - intros j Hj. by rewrite lookup_app_l.
  - intros j Hj. rewrite lookup_app_r by lia.
    rewrite lookup_app_l by (rewrite length_replicate; lia).
    apply lookup_replicate_2. lia.
Qed.

Lemma submit_past_end_extends_witness :
  let w := {| heap := [OArray [VString "Bar"]; OGlobalState None 0];
              current := 1; pushed := [] |} in
  let input := {| interaction := Submit; value := VString "Baz"; index := Z.of_nat 3 |} in
  exists w' l',
    streamlitReturnGlobalFn input w = Some (tt, w')
    /\ view w' = Some (Some input, l')
    /\ length l' = 4
    /\ l' !! 3 = Some (VString "Baz")
    /\ (forall j, j < 1 -> l' !! j = [VString "Bar"] !! j)
    /\ (forall j, 1 <= j < 3 -> l' !! j = Some VUndefined).
Proof.
  intros w input.
  assert (Hi : length [VString "Bar"] <= 3) by (simpl; lia).
  exact (submit_past_end_extends w None [VString "Bar"] 3 Submit (VString "Baz")
           eq_refl Hi (or_introl eq_refl)).
Defined.

(** X3. Two resets in a row for a position that has a slot leave null there,
    whatever the slot held: the first leaves the empty list or null, and
    neither has a length. *)
Theorem reset_twice_leaves_null w act l (i : nat) v1 v2 :
  view w = Some (act, l) ->
  i < length l ->
  let r1 := {| interaction := Reset; value := v1; index := Z.of_nat i |} in
  let r2 := {| interaction := Reset; value := v2; index := Z.of_nat i |} in
  exists w' l',
    dispatch [r1; r2] w = Some (tt, w')
    /\ view w' = Some (Some r2, l')
    /\ l' !! i = Some VNull
    /\ (forall j, j ≠ i -> l' !! j = l !! j).
Proof.
  intros Hv Hi r1 r2.
  destruct (dispatch_view [r1; r2] _ _ _ Hv) as (w' & Hrun & Hv').
  exists w'. eexists. split; [exact Hrun|]. split; [exact Hv'|].
  cbn [foldl]. unfold slots_after, r1, r2; cbn [interaction index value].
  set (l1 := js_array_set l (Z.of_nat i) _).
  assert (Hlen1 : length l1 = length l) by (by apply js_array_set_length).
  assert (H1 : exists x, l1 !! i = Some x /\ has_length x = false).
  { subst l1. rewrite js_array_set_lookup by done.
    destruct (has_length _); eauto. }
  destruct H1 as (x & Hx & Hnone).
  rewrite (js_array_get_lookup _ _ _ Hx), Hnone.
  split; [apply js_array_set_lookup; lia|].
  intros j Hj. rewrite js_array_set_lookup_ne by lia.
  subst l1. by apply js_array_set_lookup_ne.
Qed.

Lemma reset_twice_leaves_null_witness :
  let w := {| heap := [OArray [VArray ["Bar"; "Baz"]; VNull]; OGlobalState None 0];
              current := 1; pushed := [] |} in
  let r := {| interaction := Reset; value := VString ""; index := Z.of_nat 0 |} in
  exists w' l',
    dispatch [r; r] w = Some (tt, w')
    /\ view w' = Some (Some r, l')
    /\ l' !! 0 = Some VNull
    /\ (forall j, j ≠ 0 -> l' !! j = [VArray ["Bar"; "Baz"]; VNull] !! j).
Proof.
  intros w r.
  assert (Hi : 0 < length [VArray ["Bar"; "Baz"]; VNull]) by (simpl; lia).
  exact (reset_twice_leaves_null w None [VArray ["Bar"; "Baz"]; VNull] 0
           (VString "") (VString "") eq_refl Hi).
Defined.

Lemma slots_after_other e l (j : nat) x :
  (writes_slot (interaction e) = true -> index e ≠ Z.of_nat j) ->
  l !! j = Some x ->
  slots_after e l !! j = Some x.
Proof.
  intros Hne Hj. unfold slots_after.
  destruct (interaction e); cbn in Hne; try done;
    apply js_array_set_other; auto.
Qed.

(** X4. A slot that no submit, simple-value or reset event is addressed to
    still holds, after any list of events, what it held at the mount: the
    configured default, or null when there is none. This needs no
    assumption on where the other events land. *)
Theorem untouched_slot_keeps_default propsList events (j : nat) props :
  propsList !! j = Some props ->
  Forall (fun e => writes_slot (interaction e) = true -> index e ≠ Z.of_nat j) events ->
  exists w act l,
    SearchBoxFn_run propsList events = Some w
    /\ view w = Some (act, l)
    /\ l !! j = Some (nullish (props_default props) VNull).
Proof.
  intros Hj Hev.
  destruct (SearchBoxFn_run_view propsList events) as (w & Hrun & Hv).
  exists w; do 2 eexists. split; [exact Hrun|]. split; [exact Hv|].
  assert (Hinit : map (fun props => nullish (props_default props) VNull) propsList !! j
                  = Some (nullish (props_default props) VNull)).
  { change (map ?f propsList) with (f <$> propsList) at 1.
    by rewrite list_lookup_fmap, Hj. }
  revert Hinit.
  generalize (map (fun props => nullish (props_default props) VNull) propsList).
  clear Hrun Hv.
  induction Hev as [|e events He _ IH]; intros l Hl; [exact Hl|].
  cbn [foldl]. apply IH. by apply slots_after_other.
Qed.

Lemma untouched_slot_keeps_default_witness :
  let dated := {| option_source := VString ""; default_options := []; options := [];
                  is_multi := false; edit_after_submit := "option";
                  clear_on_submit := false; debounce := 0; selected_value := None;
                  selected_value_list := []; props_default := VString "2024-01-01";
                  datetimepicker_props := true |} in
  let propsList := [sample_props false false "option" 300; dated] in
  let events := [SearchBoxFnRenderer 0 (Search, VString "abc");
                 SearchBoxFnRenderer 0 (Submit, VString "Bar");
                 onHeaderClick (VString "logo")] in
  Forall (fun e => writes_slot (interaction e) = true -> index e ≠ Z.of_nat 1) events
  /\ exists w act l,
       SearchBoxFn_run propsList events = Some w
       /\ view w = Some (act, l)
       /\ l !! 1 = Some (VString "2024-01-01").
Proof.
  intros dated propsList events.
  assert (H : Forall (fun e => writes_slot (interaction e) = true -> index e ≠ Z.of_nat 1)
                     events).
  { repeat constructor; simpl; intros; lia. }
  split; [exact H|].
  exact (untouched_slot_keeps_default propsList events 1 dated eq_refl H).
Defined.

(** Heap and log along a list of events: the heap grows at its end, and
    each event adds one reference to the log, which from then on denotes
    the state right after that event. *)
Lemma dispatch_pushed events : forall w act l,
  view w = Some (act, l) ->
  exists w' h' locs,
    dispatch events w = Some (tt, w')
    /\ heap w' = heap w ++ h'
    /\ pushed w' = pushed w ++ locs
    /\ length locs = length events
    /\ forall k a, locs !! k = Some a ->
         deref (heap w') a
         = Some (events !! k, foldl (fun l e => slots_after e l) l (take (S k) events)).
Proof.
  induction events as [|e events IH]; intros w act l Hv.
  - exists w, [], []. rewrite !app_nil_r. by repeat split.
  - destruct (view_inv _ _ _ Hv) as (vl & Hs & Hl).
    destruct (streamlitReturnGlobalFn_view e _ _ _ Hv) as (w1 & Hstep & Hv1).
    pose proof (streamlitReturnGlobalFn_spec e _ _ _ _ Hs Hl) as Hspec.
    rewrite Hstep in Hspec. inversion Hspec as [Hw1]; clear Hspec.
    destruct (IH _ _ _ Hv1) as (w' & h' & locs & Hrun & Hheap & Hpushed & Hlen & Hsnap).
    exists w'. eexists. exists (current w1 :: locs).
    split; [cbn [dispatch]; by rewrite (bind_Some _ _ _ _ _ Hstep)|].
    split; [rewrite Hheap, Hw1; cbn [heap]; by rewrite <- app_assoc|].
    split; [rewrite Hpushed, Hw1; cbn [pushed current]; by rewrite <- app_assoc|].
    split; [cbn; by rewrite Hlen|].
    intros [|k] a Ha.
    + inversion Ha; subst a. rewrite Hheap. by apply deref_app.
    + cbn in Ha. rewrite (Hsnap _ _ Ha). reflexivity.
Qed.

(** X5. Along any list of events [Streamlit.setComponentValue] is called once
    per event, in order, and what the k-th call was given still denotes,
    at the end, the state right after the k-th event: that event as the
    action, and the value list as it was then. Later events change
    nothing of what was pushed. *)
Theorem pushed_values_are_snapshots propsList events :
  exists w,
    SearchBoxFn_run propsList events = Some w
    /\ length (pushed w) = length events
    /\ forall k a, pushed w !! k = Some a ->
         deref (heap w) a
         = Some (events !! k,
                 foldl (fun l e => slots_after e l)
                       (map (fun props => nullish (props_default props) VNull) propsList)
                       (take (S k) events)).
Proof.
  unfold SearchBoxFn_run. rewrite SearchBoxFn_mounts. cbn [mbind option_bind].
  destruct (dispatch_pushed events
              {| heap := [OArray (map (fun props => nullish (props_default props) VNull)
                                      propsList);
                          OGlobalState None 0];
                 current := 1; pushed := [] |} None _ eq_refl)
    as (w & h' & locs & Hrun & Hheap & Hpushed & Hlen & Hsnap).
  exists w. rewrite Hrun. split; [done|].
  cbn [pushed app] in Hpushed. rewrite Hpushed. split; [exact Hlen|exact Hsnap].
Qed.

(** ** More on keystrokes *)

Lemma rerender_reports_every_keystroke_witness :
  let args := sample_props false false "option" 300 in
  let keys : list Keystroke := [(0%Z, "a"); (100%Z, "ab"); (150%Z, "abc")] in
  chronological 0 keys
  /\ type_keys true args keys
     = [(Search, VString "a"); (Search, VString "ab"); (Search, VString "abc")].
Proof.
  intros args keys.
  assert (H : chronological 0 keys) by (cbn; lia).
  split; [exact H|]. exact (rerender_reports_every_keystroke args 0%Z keys H).
Defined.

(** ** Selection changes and the pending search *)

Lemma reading_same_refs c c' tm : refs c' = refs c -> reading c' tm = reading c tm.
Proof. unfold reading. by intros ->. Qed.

Lemma onSelectChange_frame args chosen a c c' :
  onSelectChange args chosen a c = Some c' ->
  timers c' = timers c /\ refs c' = refs c /\ lastSearchUpdate c' = lastSearchUpdate c.
Proof.
  assert (Hsubmit : forall c', callbackSubmit args chosen c = Some c' ->
            timers c' = timers c /\ refs c' = refs c
            /\ lastSearchUpdate c' = lastSearchUpdate c).
  { unfold callbackSubmit. intros c1 H1.
    destruct (is_multi args); [destruct chosen|]; cbn in H1; try discriminate;
      inversion H1; subst; done. }
  destruct a; cbn [onSelectChange]; intros H; try (inversion H; subst; done).
  - by apply Hsubmit.
  - destruct (is_multi args); [by apply Hsubmit|inversion H; subst; done].
Qed.

(** X9. No selection change cancels or alters a pending search. Whatever
    [onSelectChange] does (submit, reset, or nothing), the timers and the
    text they will report are as before, so each pending timer still
    sends its search after what the change itself sent. *)
Theorem selection_change_keeps_pending_search args chosen a c c' :
  onSelectChange args chosen a c = Some c' ->
  timers c' = timers c
  /\ sent (run_all_timers c') = sent c' ++ map (reading c) (timers c).
Proof.
  intros H. destruct (onSelectChange_frame _ _ _ _ _ H) as (Ht & Hr & _).
  split; [exact Ht|].
  rewrite run_all_timers_outcome. unfold outcome. rewrite Ht. f_equal.
  apply map_reading_ext. apply Forall_forall. intros tm _.
  by apply reading_same_refs.
Qed.

Lemma selection_change_keeps_pending_search_witness :
  let args := sample_props false false "option" 300 in
  let typed := type_key false args (SingleSearchBox args) (0%Z, "foo") in
  exists c',
    onSelectChange args (One Bar) clear typed = Some c'
    /\ timers c' = timers typed
    /\ sent (run_all_timers c') = [(Reset, VString ""); (Search, VString "foo")].
Proof.
  intros args typed. exists (callbackReset typed). split; [reflexivity|].
  exact (selection_change_keeps_pending_search args (One Bar) clear typed
           (callbackReset typed) eq_refl).
Defined.

(** ** The button *)

(** X10. A click on the button right after a selection sends one button-click
    event and leaves the state alone. For a single select the event
    carries the label of the selected option; for a multi select it
    carries [undefined], because [selectedOption] then holds the array of
    options, which has no label. *)
Theorem button_click_after_select args chosen c :
  fits args chosen ->
  exists c',
    onSelectChange args chosen select_option c = Some c'
    /\ sent (onButtonClick c')
       = sent c' ++ [(ButtonClick,
                      match chosen with
                      | One o => VString (label o)
                      | Many _ => VUndefined
                      end)]
    /\ state (onButtonClick c') = state c'.
Proof.
  intros Hfit. eexists. split; [by apply callbackSubmit_fits|].
  split; [|reflexivity].
  unfold onButtonClick. rewrite state_setState. cbn [selectedOption].
  by destruct chosen.
Qed.

Lemma button_click_after_select_witness :
  let args := sample_props true false "option" 0 in
  fits args (Many [Bar; Baz])
  /\ exists c',
       onSelectChange args (Many [Bar; Baz]) select_option (SingleSearchBox args) = Some c'
       /\ sent (onButtonClick c') = sent c' ++ [(ButtonClick, VUndefined)]
       /\ state (onButtonClick c') = state c'.
Proof.
  intros args. split; [reflexivity|].
  exact (button_click_after_select args (Many [Bar; Baz]) (SingleSearchBox args) eq_refl).
Defined.

Lemma sent_callbackSearch input D now c : sent (callbackSearch input D now c) = sent c.
Proof.
  unfold callbackSearch. rewrite sent_setState.
  destruct (lastSearchUpdate_current c) as [upd|]; [|done].
  by destruct (_ >? _)%Z.
Qed.

(** X11. A click on the button after a keystroke, or after the control was
    cleared, reports [undefined] whatever was selected before: both
    handlers set the selected option to null. *)
Theorem button_click_after_keystroke_or_clear args text now chosen c :
  sent (onButtonClick (onSelectInputChange args text input_change now c))
  = sent c ++ [(ButtonClick, VUndefined)]
  /\ exists c',
       onSelectChange args chosen clear c = Some c'
       /\ sent (onButtonClick c') = sent c' ++ [(ButtonClick, VUndefined)].
Proof.
  split.
  - cbn [onSelectInputChange]. unfold onButtonClick at 1.
    cbn [streamlitReturnFn sent]. rewrite sent_callbackSearch.
    unfold callbackSearch. by rewrite state_setState.
  - eexists. split; reflexivity.
Qed.

(** ** The text after a submit *)

(** X12. For a single select the text after a submit depends on the edit mode
    only, whether or not submit-clear is set: "current" keeps the text,
    "option" shows the label of the option, "concat" the text, a space
    and the label, and any other mode, "disabled" among them, empties it.
    The option becomes the selection, and the menu is left open unless
    submit-clear is set. *)
Theorem single_submit_text args o c :
  is_multi args = false ->
  exists c',
    onSelectChange args (One o) select_option c = Some c'
    /\ menu (state c') = negb (clear_on_submit args)
    /\ selectedOption (state c') = Some (One o)
    /\ (edit_after_submit args = "current" ->
        inputValue (state c') = inputValue (state c))
    /\ (edit_after_submit args = "option" ->
        inputValue (state c') = VString (label o))
    /\ (edit_after_submit args = "concat" ->
        inputValue (state c')
        = VString (ToString (inputValue (state c)) +:+ " " +:+ label o))
    /\ (edit_after_submit args ∉ ["current"; "option"; "concat"] ->
        inputValue (state c') = VString "").
Proof.
  intros Hm. eexists. split; [by apply callbackSubmit_fits|].
  rewrite state_setState. cbn [menu selectedOption inputValue].
  rewrite Hm, andb_false_r. unfold input_after_submit. cbn [label_of ToString].
  split; [done|]. split; [done|].
  split; [by intros ->|]. split; [by intros ->|]. split; [by intros ->|].
  intros Hnot.
  destruct (String.eqb_spec (edit_after_submit args) "current") as [E|_];
    [destruct Hnot; rewrite E; repeat constructor|].
  destruct (String.eqb_spec (edit_after_submit args) "option") as [E|_];
    [destruct Hnot; rewrite E; repeat constructor|].
  destruct (String.eqb_spec (edit_after_submit args) "concat") as [E|_];
    [destruct Hnot; rewrite E; repeat constructor|].
  done.
Qed.

Lemma single_submit_text_witness :
  let args := sample_props false false "option" 0 in
  let typed := onSelectInputChange args "foo" input_change 0 (SingleSearchBox args) in
  is_multi args = false
  /\ exists c',
       onSelectChange args (One Bar) select_option typed = Some c'
       /\ menu (state c') = true
       /\ inputValue (state c') = VString "Bar".
Proof.
  intros args typed. split; [reflexivity|].
  destruct (single_submit_text args Bar typed eq_refl)
    as (c' & H1 & H2 & _ & _ & H4 & _).
  exists c'. split; [exact H1|]. split; [exact H2|]. exact (H4 eq_refl).
Defined.

(** X13. For a multi select without submit-clear, the edit modes that read the
    label of the option read it off the array of options, which has
    none: "option" leaves the text [undefined], and "concat" appends the
    word "undefined" to the text. The menu is left open and the options
    become the selected list. *)
Theorem multi_submit_text args l c :
  is_multi args = true ->
  clear_on_submit args = false ->
  exists c',
    onSelectChange args (Many l) select_option c = Some c'
    /\ menu (state c') = true
    /\ selectedOptionList (state c') = l
    /\ (edit_after_submit args = "option" -> inputValue (state c') = VUndefined)
    /\ (edit_after_submit args = "concat" ->
        inputValue (state c')
        = VString (ToString (inputValue (state c)) +:+ " undefined")).
Proof.
  intros Hm Hc. eexists. split; [by apply callbackSubmit_fits|].
  rewrite state_setState. cbn [menu selectedOptionList inputValue].
  rewrite Hc. unfold input_after_submit. cbn [label_of ToString andb negb].
  split; [done|]. split; [done|]. split; by intros ->.
Qed.

Lemma multi_submit_text_witness :
  let args := sample_props true false "concat" 0 in
  let typed := onSelectInputChange args "foo" input_change 0 (SingleSearchBox args) in
  is_multi args = true
  /\ clear_on_submit args = false
  /\ exists c',
       onSelectChange args (Many [Bar]) select_option typed = Some c'
       /\ inputValue (state c') = VString "foo undefined".
Proof.
  intros args typed. split; [reflexivity|]. split; [reflexivity|].
  destruct (multi_submit_text args [Bar] typed eq_refl eq_refl)
    as (c' & H1 & _ & _ & _ & H5).
  exists c'. split; [exact H1|]. exact (H5 eq_refl).
Defined.

(** ** Which options are offered *)

(** X14. After the control is cleared the configured default options are
    offered; after a keystroke they are offered exactly when the
    keystroke left the input empty, and the options of the host
    otherwise. *)
Theorem options_offered args chosen text now c :
  (exists c', onSelectChange args chosen clear c = Some c'
              /\ optionList args (state c') = default_options args)
  /\ optionList args (state (onSelectInputChange args text input_change now c))
     = if String.eqb text "" then default_options args else options args.
Proof.
  split; [eexists; split; reflexivity|].
  cbn [onSelectInputChange]. unfold callbackSearch. rewrite state_setState.
  unfold optionList. cbn [inputValue]. by destruct text.
Qed.

(** ** Polling *)

(** Once the first poll has failed, the first promise stays unresolved:
    the later polls resolve or make other promises. *)
Lemma poll_keeps_first checks : forall p i,
  polling p = Some i -> 0 < i -> i < length (promises p) ->
  promises p !! 0 = Some false ->
  promises (foldl poll p checks) !! 0 = Some false.
Proof.
  induction checks as [|ok checks IH]; intros p i Hp Hi Hlen H0; [exact H0|].
  cbn [foldl]. unfold poll at 2. rewrite Hp. destruct ok.
  - clear IH. set (p' := {| promises := _; polling := None |}).
    assert (Hidle : forall cs, foldl poll p' cs = p').
    { induction cs as [|x cs IHcs]; [done|]. cbn [foldl]. by rewrite <- IHcs at 2. }
    rewrite Hidle. subst p'. cbn [promises].
    rewrite list_lookup_insert_ne by lia. exact H0.
  - cbn [waitUntil snd promises].
    apply (IH _ (length (promises p))); cbn [polling promises].
    + done.
    + lia.
    + rewrite length_app. cbn. lia.
    + by apply lookup_app_l_Some.
Qed.

Lemma poll_failing n : forall m,
  foldl poll {| promises := replicate (S m) false; polling := Some m |}
        (replicate n false)
  = {| promises := replicate (S (n + m)) false; polling := Some (n + m) |}.
Proof.
  induction n as [|n IH]; intros m; [done|].
  change (replicate (S n) false) with (false :: replicate n false).
  cbn [foldl]. unfold poll at 2. cbn [polling waitUntil snd promises].
  rewrite length_replicate.
  replace (replicate (S m) false ++ [false]) with (replicate (S (S m)) false).
  - rewrite IH. by replace (n + S m) with (S n + m) by lia.
  - change [false] with (replicate 1 false). rewrite <- replicate_add.
    f_equal. lia.
Qed.

(** While every poll fails, polling goes on: after [n] failed polls the
    timer of promise number [n] is pending and no promise is resolved. *)
Lemma waitUntil_run_failing n :
  waitUntil_run (replicate n false)
  = {| promises := replicate (S n) false; polling := Some n |}.
Proof.
  unfold waitUntil_run.
  change (waitUntil {| promises := []; polling := None |}).2
    with {| promises := replicate 1 false; polling := Some 0 |}.
  rewrite (poll_failing n 0). by rewrite Nat.add_0_r.
Qed.

Lemma poll_idle p checks : polling p = None -> foldl poll p checks = p.
Proof.
  intros Hp. induction checks as [|ok checks IH]; [done|].
  cbn [foldl]. unfold poll at 2. by rewrite Hp.
Qed.

(** X15. The promise that [waitUntil] returns is resolved exactly when
    [check()] holds at the first poll. When the first poll fails, the
    polls that follow belong to promises nobody holds, and a later
    success resolves one of those. *)
Theorem waitUntil_resolves_at_first_poll_only checks :
  caller_resumed (waitUntil_run checks) = default false (head checks).
Proof.
  unfold caller_resumed, waitUntil_run. cbn [waitUntil snd promises length app].
  destruct checks as [|ok checks]; [done|].
  cbn [foldl head default]. unfold poll at 2. cbn [polling].
  destruct ok.
  - by rewrite poll_idle.
  - cbn [waitUntil snd promises length app].
    rewrite (poll_keeps_first checks _ 1); cbn; try done; lia.
Qed.

(** X16. A check that never holds keeps the polling alive for ever: after any
    number of polls a timer is still pending, and the caller has not been
    resumed. *)
Theorem waitUntil_never_gives_up n :
  polling (waitUntil_run (replicate n false)) = Some n
  /\ caller_resumed (waitUntil_run (replicate n false)) = false.
Proof. by rewrite waitUntil_run_failing. Qed.

(** ** Focus *)

(** X17. When the control gets the focus while it holds text, a search for the
    text is sent at once, whatever timer is pending, and the state stays;
    without text nothing is sent. The menu is opened later only if the
    option source already equalled the text when the focus came: the
    check compares two constants, so if it fails at the first poll it
    fails at all of them, however long the polling lasts. This is for an
    option source and a text that are not both arrays, [ok] being the
    value of their comparison. *)
Theorem focus_searches_and_opens args c n ok :
  strict_eq (option_source args) (inputValue (state c)) = Some ok ->
  exists c',
    focus_then_polls args c n = Some c'
    /\ sent c' = (if truthy (inputValue (state c))
                  then sent c ++ [(Search, inputValue (state c))]
                  else sent c)
    /\ timers c' = timers c
    /\ inputValue (state c') = inputValue (state c)
    /\ menu (state c')
       = if truthy (inputValue (state c)) && ok && negb (Nat.eqb n 0)
         then true
         else menu (state c).
Proof.
  intros Hok. unfold focus_then_polls, onFocus.
  destruct (truthy (inputValue (state c))); [|by exists c].
  rewrite Hok. cbn [mbind option_bind].
  eexists. split; [reflexivity|].
  assert (Hresumed : caller_resumed (waitUntil_run (replicate n ok))
                     = ok && negb (Nat.eqb n 0)).
  { destruct ok.
    - destruct n as [|n]; [done|].
      unfold waitUntil_run. cbn [replicate foldl].
      by rewrite poll_idle.
    - by rewrite waitUntil_run_failing. }
  rewrite Hresumed. cbn [andb].
  by destruct (ok && negb (Nat.eqb n 0)).
Qed.

Lemma focus_searches_and_opens_witness :
  let args := {| option_source := VString "foo"; default_options := [];
                 options := [Bar]; is_multi := false; edit_after_submit := "option";
                 clear_on_submit := false; debounce := 300; selected_value := None;
                 selected_value_list := []; props_default := VUndefined;
                 datetimepicker_props := false |} in
  let c := SingleSearchBox args in
  strict_eq (option_source args) (inputValue (state c)) = Some true
  /\ exists c',
       focus_then_polls args c 1 = Some c'
       /\ sent c' = [(Search, VString "foo")]
       /\ timers c' = []
       /\ inputValue (state c') = VString "foo"
       /\ menu (state c') = true.
Proof.
  intros args c. split; [reflexivity|].
  exact (focus_searches_and_opens args c 1 true eq_refl).
Defined.

(** ** The earlier version: submit *)

(** X18. In the earlier version, when submit-clear is set a submit resets the
    text, both selections and the menu, whatever the edit mode and for
    single and multi selects alike, after sending the submit event. *)
Theorem earlier_submit_clear_resets args chosen c :
  clear_on_submit args = true ->
  fits args chosen ->
  exists c',
    Earlier.callbackSubmit args chosen c = Some c'
    /\ sent c' = sent c ++ [(Submit,
                             match chosen with
                             | One o => VString (label o)
                             | Many l => VArray (map label l)
                             end)]
    /\ state c' = {| menu := false;
                     selectedOption := None;
                     selectedOptionList := [];
                     inputValue := VString "" |}.
Proof.
  intros Hc Hfit. unfold Earlier.callbackSubmit.
  destruct chosen as [o|l]; cbn in Hfit; rewrite Hfit; cbn;
    (eexists; split; [reflexivity|]); rewrite state_setState, Hc; by split.
Qed.

Lemma earlier_submit_clear_resets_witness :
  let args := sample_props false true "concat" 0 in
  let typed := onSelectInputChange args "foo" input_change 0 (SingleSearchBox args) in
  clear_on_submit args = true
  /\ fits args (One Bar)
  /\ exists c',
       Earlier.callbackSubmit args (One Bar) typed = Some c'
       /\ sent c' = [(Submit, VString "Bar")]
       /\ state c' = {| menu := false;
                        selectedOption := None;
                        selectedOptionList := [];
                        inputValue := VString "" |}.
Proof.
  intros args typed. split; [reflexivity|]. split; [reflexivity|].
  exact (earlier_submit_clear_resets args (One Bar) typed eq_refl eq_refl).
Defined.

(** X19. Without submit-clear the two versions of [callbackSubmit] send the
    same event and leave the same text and the same selections; they
    differ in the menu only, which the earlier version closes and the
    current one leaves open. *)
Theorem submit_versions_differ_in_menu args chosen c :
  clear_on_submit args = false ->
  fits args chosen ->
  exists c1 c2,
    callbackSubmit args chosen c = Some c1
    /\ Earlier.callbackSubmit args chosen c = Some c2
    /\ sent c1 = sent c2
    /\ inputValue (state c1) = inputValue (state c2)
    /\ selectedOption (state c1) = selectedOption (state c2)
    /\ selectedOptionList (state c1) = selectedOptionList (state c2)
    /\ menu (state c1) = true
    /\ menu (state c2) = false.
Proof.
  intros Hc Hfit. unfold callbackSubmit, Earlier.callbackSubmit.
  destruct chosen as [o|l]; cbn in Hfit; rewrite Hfit; cbn;
    (do 2 eexists; split; [reflexivity|]; split; [reflexivity|]);
    rewrite !state_setState, Hc; by repeat split.
Qed.

Lemma submit_versions_differ_in_menu_witness :
  let args := sample_props true false "current" 0 in
  clear_on_submit args = false
  /\ fits args (Many [Bar; Baz])
  /\ exists c1 c2,
       callbackSubmit args (Many [Bar; Baz]) (SingleSearchBox args) = Some c1
       /\ Earlier.callbackSubmit args (Many [Bar; Baz]) (SingleSearchBox args) = Some c2
       /\ sent c1 = sent c2
       /\ inputValue (state c1) = inputValue (state c2)
       /\ selectedOption (state c1) = selectedOption (state c2)
       /\ selectedOptionList (state c1) = selectedOptionList (state c2)
       /\ menu (state c1) = true
       /\ menu (state c2) = false.
Proof.
  intros args. split; [reflexivity|]. split; [reflexivity|].
  exact (submit_versions_differ_in_menu args (Many [Bar; Baz]) (SingleSearchBox args)
           eq_refl eq_refl).
Defined.

(** ** The earlier version: the aggregator *)

Lemma clear_flag_length v h : length (Earlier.clear_flag v h) = length h.
Proof.
  unfold Earlier.clear_flag. destruct v as [| |a]; try done.
  destruct (h !! a) as [e|]; [|done].
  destruct (Earlier.isChangeSource e); [apply length_insert|done].
Qed.

(** Clearing a flag keeps what every entry returned, drops at most the
    flag of the entry referred to, and leaves that flag down. *)
Lemma clear_flag_lookup v h a e :
  h !! a = Some e ->
  exists e',
    Earlier.clear_flag v h !! a = Some e'
    /\ Earlier.returned e' = Earlier.returned e
    /\ (Earlier.isChangeSource e' = true -> Earlier.isChangeSource e = true)
    /\ (v ≠ Earlier.SRef a -> e' = e)
    /\ (v = Earlier.SRef a -> Earlier.isChangeSource e' = false).
Proof.
  intros Ha. unfold Earlier.clear_flag. destruct v as [| |b].
  1,2: exists e; by repeat split.
  destruct (decide (b = a)) as [->|Hne].
  - rewrite Ha. destruct (Earlier.isChangeSource e) eqn:Hf.
    + eexists. rewrite list_lookup_insert_eq by (by eapply lookup_lt_Some).
      split; [reflexivity|]. by repeat split.
    + exists e. repeat split; try done; congruence.
  - assert (Hgoal : forall h', (h' = h \/ exists x, h' = <[b := x]> h) ->
              exists e', h' !! a = Some e'
                /\ Earlier.returned e' = Earlier.returned e
                /\ (Earlier.isChangeSource e' = true -> Earlier.isChangeSource e = true)
                /\ (Earlier.SRef b ≠ Earlier.SRef a -> e' = e)
                /\ (Earlier.SRef b = Earlier.SRef a -> Earlier.isChangeSource e' = false)).
    { intros h' Hh'. exists e. split.
      - destruct Hh' as [-> | [x ->]]; [done|]. by rewrite list_lookup_insert_ne.
      - repeat split; try done. intros Heq. by inversion Heq. }
    destruct (h !! b) as [eb|]; [|apply Hgoal; by left].
    destruct (Earlier.isChangeSource eb); apply Hgoal; eauto.
Qed.

(** The heap along [map_slots]: as many elements come out as positions
    are visited; entries are added, never removed; each keeps what it
    returned; a flag can only go down; and an entry to which none of the
    visited elements refers is left as it is. *)
Lemma map_slots_heap index rv s n : forall innerIndex h h' out,
  Earlier.map_slots index rv s innerIndex n h = (h', out) ->
  length out = n
  /\ length h <= length h'
  /\ forall a e, h !! a = Some e ->
       exists e', h' !! a = Some e'
         /\ Earlier.returned e' = Earlier.returned e
         /\ (Earlier.isChangeSource e' = true -> Earlier.isChangeSource e = true)
         /\ ((forall j, innerIndex <= j < innerIndex + n ->
                        s !! j ≠ Some (Earlier.SRef a)) -> e' = e).
Proof.
  induction n as [|n IH]; intros innerIndex h h' out Hmap; cbn [Earlier.map_slots] in Hmap.
  - inversion Hmap; subst. split; [done|]. split; [done|]. intros a e Ha.
    exists e. by repeat split.
  - set (value := default Earlier.SUndefined (s !! innerIndex)) in *.
    set (h1 := Earlier.clear_flag value h) in *.
    assert (Hlen1 : length h1 = length h) by apply clear_flag_length.
    destruct (Z.of_nat innerIndex =? index)%Z.
    + destruct (Earlier.map_slots index rv s (S innerIndex) n
                  (h1 ++ [{| Earlier.returned := rv; Earlier.isChangeSource := true |}]))
        as [h2 rest] eqn:Hrec.
      inversion Hmap; subst h' out; clear Hmap.
      destruct (IH _ _ _ _ Hrec) as (Hlen & Hgrow & Hold).
      rewrite length_app in Hgrow. cbn in Hgrow.
      split; [cbn; by rewrite Hlen|]. split; [lia|].
      intros a e Ha.
      destruct (clear_flag_lookup value h a e Ha) as (e1 & H1 & Hr1 & Hf1 & Hsame1 & _).
      fold h1 in H1.
      destruct (Hold a e1 (lookup_app_l_Some _ _ _ _ H1)) as (e2 & H2 & Hr2 & Hf2 & Hsame2).
      exists e2. split; [exact H2|]. split; [congruence|]. split; [tauto|].
      intros Hnot. rewrite Hsame2 by (intros j Hj; apply Hnot; lia).
      apply Hsame1. intros Hv. apply (Hnot innerIndex); [lia|].
      subst value. destruct (s !! innerIndex) as [v|]; cbn in Hv; [by subst|done].
    + destruct (Earlier.map_slots index rv s (S innerIndex) n h1) as [h2 rest] eqn:Hrec.
      inversion Hmap; subst h' out; clear Hmap.
      destruct (IH _ _ _ _ Hrec) as (Hlen & Hgrow & Hold).
      split; [cbn; by rewrite Hlen|]. split; [lia|].
      intros a e Ha.
      destruct (clear_flag_lookup value h a e Ha) as (e1 & H1 & Hr1 & Hf1 & Hsame1 & _).
      fold h1 in H1.
      destruct (Hold a e1 H1) as (e2 & H2 & Hr2 & Hf2 & Hsame2).
      exists e2. split; [exact H2|]. split; [congruence|]. split; [tauto|].
      intros Hnot. rewrite Hsame2 by (intros j Hj; apply Hnot; lia).
      apply Hsame1. intros Hv. apply (Hnot innerIndex); [lia|].
      subst value. destruct (s !! innerIndex) as [v|]; cbn in Hv; [by subst|done].
Qed.

(** The elements that come out of [map_slots] when every reference of the
    previous array is to an entry that exists: at the position of the
    event a reference to a new entry, flagged; elsewhere the element of
    the previous array, its flag down. *)
Lemma map_slots_out index rv s n : forall innerIndex h h' out,
  Forall (fun v => match v with
                   | Earlier.SRef a => a < length h
                   | _ => True
                   end) s ->
  Earlier.map_slots index rv s innerIndex n h = (h', out) ->
  Forall (fun v => match v with
                   | Earlier.SRef a => a < length h'
                   | _ => True
                   end) out
  /\ forall k, k < n ->
       if (Z.of_nat (innerIndex + k) =? index)%Z
       then exists a,
              out !! k = Some (Earlier.SRef a)
              /\ length h <= a
              /\ h' !! a = Some {| Earlier.returned := rv; Earlier.isChangeSource := true |}
       else out !! k = Some (default Earlier.SUndefined (s !! (innerIndex + k)))
            /\ Earlier.flagged h' (default Earlier.SUndefined (s !! (innerIndex + k)))
               = false.
Proof.
  induction n as [|n IH]; intros innerIndex h h' out Hwf Hmap.
  - cbn in Hmap. inversion Hmap; subst. split; [constructor|]. intros k Hk. lia.
  - pose proof Hmap as Hall. cbn [Earlier.map_slots] in Hmap.
    set (value := default Earlier.SUndefined (s !! innerIndex)) in *.
    set (h1 := Earlier.clear_flag value h) in *.
    assert (Hlen1 : length h1 = length h) by apply clear_flag_length.
    assert (Hvalue : match value with
                     | Earlier.SRef a => a < length h
                     | _ => True
                     end).
    { subst value. destruct (s !! innerIndex) as [v|] eqn:Hv; [|done].
      cbn. by apply (proj1 (Forall_lookup _ _) Hwf innerIndex v). }
    destruct (Z.of_nat innerIndex =? index)%Z eqn:Heq.
    + set (new := {| Earlier.returned := rv; Earlier.isChangeSource := true |}) in *.
      destruct (Earlier.map_slots index rv s (S innerIndex) n (h1 ++ [new]))
        as [h2 rest] eqn:Hrec.
      inversion Hmap; subst h' out; clear Hmap.
      assert (Hwf2 : Forall (fun v => match v with
                                      | Earlier.SRef a => a < length (h1 ++ [new])
                                      | _ => True
                                      end) s).
      { eapply Forall_impl; [exact Hwf|]. intros [| |a]; try done.
        rewrite length_app, Hlen1. cbn. lia. }
      destruct (IH _ _ _ _ Hwf2 Hrec) as (Hwfout & Hout).
      destruct (map_slots_heap _ _ _ _ _ _ _ _ Hrec) as (_ & Hgrow & Hold).
      rewrite length_app in Hgrow. cbn in Hgrow.
      split; [constructor; [lia|exact Hwfout]|].
      intros [|k] Hk.
      * rewrite Nat.add_0_r, Heq. exists (length h1).
        split; [done|]. split; [lia|].
        destruct (Hold (length h1) new (lookup_snoc _ _)) as (e' & He' & _ & _ & Hsame).
        rewrite He', Hsame; [done|].
        intros j _ Hj.
        pose proof (proj1 (Forall_lookup _ _) Hwf j _ Hj) as Hlt. cbn in Hlt. lia.
      * replace (innerIndex + S k) with (S innerIndex + k) by lia.
        specialize (Hout k ltac:(lia)).
        destruct (Z.of_nat (S innerIndex + k) =? index)%Z; [|exact Hout].
        destruct Hout as (a & Ha & Hle & Hnew). exists a.
        rewrite length_app in Hle. cbn in Hle. split; [done|]. split; [lia|done].
    + destruct (Earlier.map_slots index rv s (S innerIndex) n h1) as [h2 rest] eqn:Hrec.
      inversion Hmap; subst h' out; clear Hmap.
      assert (Hwf1 : Forall (fun v => match v with
                                      | Earlier.SRef a => a < length h1
                                      | _ => True
                                      end) s) by (by rewrite Hlen1).
      destruct (IH _ _ _ _ Hwf1 Hrec) as (Hwfout & Hout).
      destruct (map_slots_heap _ _ _ _ _ _ _ _ Hrec) as (_ & Hgrow & Hold).
      split.
      { constructor; [|exact Hwfout]. destruct value; try done. lia. }
      intros [|k] Hk.
      * rewrite Nat.add_0_r, Heq. fold value. split; [done|].
        destruct value as [| |a] eqn:Hv; try done.
        destruct (lookup_lt_is_Some_2 h a Hvalue) as [e He].
        destruct (clear_flag_lookup (Earlier.SRef a) h a e He)
          as (e1 & H1 & _ & _ & _ & Hdown).
        fold h1 in H1.
        destruct (Hold a e1 H1) as (e2 & H2 & _ & Hf2 & _).
        unfold Earlier.flagged. rewrite H2. cbn.
        destruct (Earlier.isChangeSource e2); [|done].
        rewrite Hdown in Hf2 by done. by specialize (Hf2 eq_refl).
      * replace (innerIndex + S k) with (S innerIndex + k) by lia.
        specialize (Hout k ltac:(lia)).
        destruct (Z.of_nat (S innerIndex + k) =? index)%Z; [|exact Hout].
        destruct Hout as (a & Ha & Hle & Hnew). exists a.
        split; [done|]. split; [lia|done].
Qed.

(** X20. Whatever the previous state is, and whatever position the event
    names, the new state has exactly one element per instance: the array
    is rebuilt from the list of instances at every event. *)
Theorem earlier_state_has_one_element_per_instance N index returnVal w :
  length (Earlier.state (Earlier.streamlitReturnGlobalFn N index returnVal w)) = N.
Proof.
  unfold Earlier.streamlitReturnGlobalFn.
  destruct (Earlier.map_slots index returnVal (Earlier.state w) 0 N (Earlier.entries w))
    as [h out] eqn:Hmap.
  cbn. by destruct (map_slots_heap _ _ _ _ _ _ _ _ Hmap) as (Hlen & _).
Qed.

(** X21. After an event of the instance at position [i], the element at [i]
    is a new entry that holds the event and is flagged as the change
    source, and every other element is the one of the previous state
    with its flag down: exactly one element is flagged. Entries are
    changed in place, so an entry that was flagged before shows its flag
    down in the arrays pushed earlier as well. The new array is pushed. *)
Theorem earlier_one_change_source N (i : nat) returnVal w :
  Earlier.well_formed w ->
  i < N ->
  let w' := Earlier.streamlitReturnGlobalFn N (Z.of_nat i) returnVal w in
  Earlier.well_formed w'
  /\ Earlier.pushed w' = Earlier.pushed w ++ [Earlier.state w']
  /\ (exists a,
        Earlier.state w' !! i = Some (Earlier.SRef a)
        /\ Earlier.entries w' !! a
           = Some {| Earlier.returned := returnVal; Earlier.isChangeSource := true |})
  /\ forall j, j < N -> j ≠ i ->
       Earlier.state w' !! j = Some (default Earlier.SUndefined (Earlier.state w !! j))
       /\ Earlier.flagged (Earlier.entries w')
            (default Earlier.SUndefined (Earlier.state w !! j)) = false.
Proof.
  intros Hwf Hi. unfold Earlier.streamlitReturnGlobalFn, Earlier.well_formed in *.
  destruct (Earlier.map_slots (Z.of_nat i) returnVal (Earlier.state w) 0 N
              (Earlier.entries w)) as [h out] eqn:Hmap.
  cbn [Earlier.entries Earlier.state Earlier.pushed].
  destruct (map_slots_out _ _ _ _ _ _ _ _ Hwf Hmap) as (Hwfout & Hout).
  split; [exact Hwfout|]. split; [done|]. split.
  - specialize (Hout i Hi). cbn [Nat.add] in Hout. rewrite Z.eqb_refl in Hout.
    destruct Hout as (a & Ha & _ & Hnew). by exists a.
  - intros j Hj Hne. specialize (Hout j Hj). cbn [Nat.add] in Hout.
    destruct (Z.eqb_spec (Z.of_nat j) (Z.of_nat i)); [lia|]. exact Hout.
Qed.

Lemma earlier_one_change_source_witness :
  let w := {| Earlier.entries := [{| Earlier.returned := (Search, VString "ab");
                                     Earlier.isChangeSource := true |}];
              Earlier.state := [Earlier.SRef 0; Earlier.SNull];
              Earlier.pushed := [[Earlier.SRef 0; Earlier.SNull]] |} in
  let w' := Earlier.streamlitReturnGlobalFn 2 (Z.of_nat 1) (Submit, VString "Bar") w in
  Earlier.well_formed w
  /\ 1 < 2
  /\ Earlier.well_formed w'
  /\ Earlier.pushed w' = Earlier.pushed w ++ [Earlier.state w']
  /\ (exists a,
        Earlier.state w' !! 1 = Some (Earlier.SRef a)
        /\ Earlier.entries w' !! a
           = Some {| Earlier.returned := (Submit, VString "Bar");
                     Earlier.isChangeSource := true |})
  /\ forall j, j < 2 -> j ≠ 1 ->
       Earlier.state w' !! j = Some (default Earlier.SUndefined (Earlier.state w !! j))
       /\ Earlier.flagged (Earlier.entries w')
            (default Earlier.SUndefined (Earlier.state w !! j)) = false.
Proof.
  intros w w'.
  assert (Hwf : Earlier.well_formed w) by (repeat constructor).
  assert (Hi : 1 < 2) by lia.
  split; [exact Hwf|]. split; [exact Hi|].
  exact (earlier_one_change_source 2 1 (Submit, VString "Bar") w Hwf Hi).
Defined.

(** X22. An event that names a position outside the list of instances is
    lost: every element of the new state is the one of the previous
    state, none is flagged, and no element records the event. *)
Theorem earlier_event_outside_is_lost N index returnVal w :
  Earlier.well_formed w ->
  (index < 0 \/ Z.of_nat N <= index)%Z ->
  let w' := Earlier.streamlitReturnGlobalFn N index returnVal w in
  Earlier.well_formed w'
  /\ forall j, j < N ->
       Earlier.state w' !! j = Some (default Earlier.SUndefined (Earlier.state w !! j))
       /\ Earlier.flagged (Earlier.entries w')
            (default Earlier.SUndefined (Earlier.state w !! j)) = false.
Proof.
  intros Hwf Hout. unfold Earlier.streamlitReturnGlobalFn, Earlier.well_formed in *.
  destruct (Earlier.map_slots index returnVal (Earlier.state w) 0 N (Earlier.entries w))
    as [h out] eqn:Hmap.
  cbn [Earlier.entries Earlier.state Earlier.pushed].
  destruct (map_slots_out _ _ _ _ _ _ _ _ Hwf Hmap) as (Hwfout & Hslots).
  split; [exact Hwfout|].
  intros j Hj. specialize (Hslots j Hj). cbn [Nat.add] in Hslots.
  destruct (Z.eqb_spec (Z.of_nat j) index); [lia|]. exact Hslots.
Qed.

Lemma earlier_event_outside_is_lost_witness :
  let w := Earlier.SearchBoxFn 2 in
  let w' := Earlier.streamlitReturnGlobalFn 2 2 (Submit, VString "Bar") w in
  Earlier.well_formed w
  /\ (2 < 0 \/ Z.of_nat 2 <= 2)%Z
  /\ Earlier.well_formed w'
  /\ forall j, j < 2 ->
       Earlier.state w' !! j = Some (default Earlier.SUndefined (Earlier.state w !! j))
       /\ Earlier.flagged (Earlier.entries w')
            (default Earlier.SUndefined (Earlier.state w !! j)) = false.
Proof.
  intros w w'.
  assert (Hwf : Earlier.well_formed w) by (repeat constructor).
  assert (Hout : (2 < 0 \/ Z.of_nat 2 <= 2)%Z) by (right; simpl; lia).
  split; [exact Hwf|]. split; [exact Hout|].
  exact (earlier_event_outside_is_lost 2 2 (Submit, VString "Bar") w Hwf Hout).
Defined.

Lemma earlier_step_well_formed N index returnVal w :
  Earlier.well_formed w ->
  Earlier.well_formed (Earlier.streamlitReturnGlobalFn N index returnVal w).
Proof.
  intros Hwf. unfold Earlier.streamlitReturnGlobalFn, Earlier.well_formed in *.
  destruct (Earlier.map_slots index returnVal (Earlier.state w) 0 N (Earlier.entries w))
    as [h out] eqn:Hmap.
  by destruct (map_slots_out _ _ _ _ _ _ _ _ Hwf Hmap) as (Hwfout & _).
Qed.

Lemma earlier_dispatch_well_formed N events :
  Earlier.well_formed (Earlier.dispatch N events).
Proof.
  unfold Earlier.dispatch.
  assert (H0 : Earlier.well_formed (Earlier.SearchBoxFn N)).
  { unfold Earlier.well_formed. cbn. by apply Forall_replicate. }
  revert H0. generalize (Earlier.SearchBoxFn N).
  induction events as [|e events IH]; intros w Hw; [exact Hw|].
  cbn [foldl]. apply IH. by apply earlier_step_well_formed.
Qed.

(** X23. From the mount on, after any list of events of the instances and
    then one of the instance at position [i], exactly one element of the
    state is flagged as the change source: the one at [i]. *)
Theorem earlier_last_event_is_the_change_source N events (i : nat) returnVal :
  i < N ->
  let w := Earlier.dispatch N (events ++ [(i, returnVal)]) in
  forall j, j < N ->
    exists v, Earlier.state w !! j = Some v
              /\ Earlier.flagged (Earlier.entries w) v = bool_decide (j = i).
Proof.
  intros Hi w j Hj. subst w. unfold Earlier.dispatch. rewrite foldl_snoc.
  fold (Earlier.dispatch N events). cbn [fst snd].
  pose proof (earlier_dispatch_well_formed N events) as Hwf.
  unfold Earlier.streamlitReturnGlobalFn, Earlier.well_formed in *.
  destruct (Earlier.map_slots (Z.of_nat i) returnVal
              (Earlier.state (Earlier.dispatch N events)) 0 N
              (Earlier.entries (Earlier.dispatch N events))) as [h out] eqn:Hmap.
  cbn [Earlier.entries Earlier.state].
  destruct (map_slots_out _ _ _ _ _ _ _ _ Hwf Hmap) as (_ & Hout).
  specialize (Hout j Hj). cbn [Nat.add] in Hout.
  destruct (Z.eqb_spec (Z.of_nat j) (Z.of_nat i)) as [Heq|Hne].
  - destruct Hout as (a & Ha & _ & Hnew). exists (Earlier.SRef a).
    split; [exact Ha|]. unfold Earlier.flagged. rewrite Hnew. cbn.
    by rewrite bool_decide_eq_true_2 by lia.
  - destruct Hout as (Hv & Hflag). eexists. split; [exact Hv|].
    by rewrite Hflag, bool_decide_eq_false_2 by lia.
Qed.

Lemma earlier_last_event_is_the_change_source_witness :
  let events := [(0, (Search, VString "ab")); (1, (Submit, VString "Bar"))] in
  0 < 2
  /\ let w := Earlier.dispatch 2 (events ++ [(0, (Reset, VString ""))]) in
     forall j, j < 2 ->
       exists v, Earlier.state w !! j = Some v
                 /\ Earlier.flagged (Earlier.entries w) v = bool_decide (j = 0).
Proof.
  intros events.
  assert (Hi : 0 < 2) by lia.
  split; [exact Hi|].
  exact (earlier_last_event_is_the_change_source 2 events 0 (Reset, VString "") Hi).
Defined.

(** ** From a controller to the value list *)





(** X25. A selection reaches the host. When an option is selected, or for a
    multi select the options, in the instance at position [i], and the
    events it sends are handled by the reducer, slot [i] of the value
    list holds the label, or the list of the labels, and the other slots
    are as before. *)
Theorem selection_reaches_value_list args chosen c w act l (i : nat) :
  fits args chosen ->
  view w = Some (act, l) ->
  i < length l ->
  exists c' w' act' l',
    onSelectChange args chosen select_option c = Some c'
    /\ dispatch (SearchBoxFnRenderer i <$> drop (length (sent c)) (sent c')) w
       = Some (tt, w')
    /\ view w' = Some (act', l')
    /\ l' !! i = Some (match chosen with
                       | One o => VString (label o)
                       | Many l => VArray (map label l)
                       end)
    /\ forall j, j ≠ i -> l' !! j = l !! j.
Proof.
  intros Hfit Hv Hi.
  eexists. 
  destruct (dispatch_view
              [SearchBoxFnRenderer i (Submit, match chosen with
                                              | One o => VString (label o)
                                              | Many l => VArray (map label l)
                                              end)] _ _ _ Hv) as (w' & Hrun & Hv').
  exists w'. do 2 eexists.
  split; [by apply callbackSubmit_fits|].
  rewrite sent_setState. cbn [streamlitReturnFn sent]. rewrite drop_app_length.
  split; [exact Hrun|]. split; [exact Hv'|].
  cbn [foldl]. unfold slots_after, SearchBoxFnRenderer. cbn [interaction index value fst snd].
  split; [by apply js_array_set_lookup|].
  intros j Hj. by apply js_array_set_lookup_ne.
Qed.

Lemma selection_reaches_value_list_witness :
  let args := sample_props true false "current" 0 in
  let w := {| heap := [OArray [VNull; VNull]; OGlobalState None 0];
              current := 1; pushed := [] |} in
  fits args (Many [Bar; Baz])
  /\ view w = Some (None, [VNull; VNull])
  /\ 1 < length [VNull; VNull]
  /\ exists c' w' act' l',
       onSelectChange args (Many [Bar; Baz]) select_option (SingleSearchBox args) = Some c'
       /\ dispatch (SearchBoxFnRenderer 1
                      <$> drop (length (sent (SingleSearchBox args))) (sent c')) w
          = Some (tt, w')
       /\ view w' = Some (act', l')
       /\ l' !! 1 = Some (VArray ["Bar"; "Baz"])
       /\ forall j, j ≠ 1 -> l' !! j = [VNull; VNull] !! j.
Proof.
  intros args w.
  assert (Hi : 1 < length [VNull; VNull]) by (simpl; lia).
  split; [reflexivity|]. split; [reflexivity|]. split; [exact Hi|].
  exact (selection_reaches_value_list args (Many [Bar; Baz]) (SingleSearchBox args) w
           None [VNull; VNull] 1 eq_refl eq_refl Hi).
Defined.
